(** * XMLFlatten: the two flattening policies, embedded and verified

    Policy A is [expand_node] of [app.py] (full cartesian expansion, column
    names carrying the ancestor path) and of [version2.py] (the same walk
    with local column names).  Policy B is [flatten_xml] of [version3.py]
    with its helpers [_flatten_element], [_has_repetitive_descendants],
    [_extract_repetitive_data] and [_infer_snowflake_type].

    Python dictionaries keep insertion order, so rows, groups and the table
    set are association lists with the dictionary's update discipline: a
    key that is present keeps its position and gets the new value, a new
    key goes to the end. *)

From Stdlib Require Import List String Ascii Bool Arith ZArith Lia.
From Stdlib Require Import DecimalString.
Import ListNotations.
Open Scope string_scope.
Open Scope list_scope.

Set Implicit Arguments.
Set Warnings "-register-all".

(** ** Python dictionaries *)

Module Dict.

Section Ops.
Variable V : Type.

Definition t := list (string * V).

Definition empty : t := [].

Fixpoint get (k : string) (d : t) : option V :=
  match d with
  | [] => None
  | (k', v) :: d' => if String.eqb k k' then Some v else get k d'
  end.

Definition mem (k : string) (d : t) : bool :=
  match get k d with Some _ => true | None => false end.

(** [d[k] = v] *)
Fixpoint set (k : string) (v : V) (d : t) : t :=
  match d with
  | [] => [(k, v)]
  | (k', v') :: d' =>
      if String.eqb k k' then (k', v) :: d' else (k', v') :: set k v d'
  end.

(** [d.update(other)] *)
Definition update (d other : t) : t :=
  fold_left (fun acc kv => set (fst kv) (snd kv) acc) other d.

Definition keys (d : t) : list string := map fst d.

(** A well-formed dictionary holds every key once. *)
Definition wf (d : t) : Prop := NoDup (keys d).

(** What key [k] holds once the items of [other] have been written over a
    dictionary in which it held [old]: the value of the last item of [other]
    with that key, and [old] when there is none. *)
Definition last_item (k : string) (other : t) (old : option V) : option V :=
  fold_left (fun acc kv => if String.eqb k (fst kv) then Some (snd kv) else acc)
            other old.

Variable veqb : V -> V -> bool.

(** [a == b] on dictionaries: same size, and every item of [a] is found
    in [b] with an equal value; the order of insertion plays no part. *)
Definition eqb (a b : t) : bool :=
  Nat.eqb (List.length a) (List.length b)
  && forallb (fun kv => match get (fst kv) b with
                        | Some v' => veqb (snd kv) v'
                        | None => false
                        end) a.
End Ops.

End Dict.

(** ** Strings: [str.strip], for the characters Python counts as white space
    below code point 128 *)

Definition is_space (c : ascii) : bool :=
  let n := nat_of_ascii c in
  (Nat.leb 9 n && Nat.leb n 13) || (Nat.leb 28 n && Nat.leb n 32).

Fixpoint lstrip (s : string) : string :=
  match s with
  | EmptyString => EmptyString
  | String c s' => if is_space c then lstrip s' else s
  end.

Fixpoint rstrip (s : string) : string :=
  match s with
  | EmptyString => EmptyString
  | String c s' =>
      match rstrip s' with
      | EmptyString => if is_space c then EmptyString else String c EmptyString
      | r => String c r
      end
  end.

Definition strip (s : string) : string := rstrip (lstrip s).

Definition nonempty (s : string) : bool :=
  match s with EmptyString => false | _ => true end.

(** ** The node model: [xml.etree.ElementTree.Element] *)

Inductive Element : Type :=
  Elem (tag : string) (attrib : list (string * string))
       (text : option string) (children : list Element).

Definition tag (e : Element) : string := let (t, _, _, _) := e in t.
Definition attrib (e : Element) : list (string * string) :=
  let (_, a, _, _) := e in a.
Definition text (e : Element) : option string := let (_, _, x, _) := e in x.
Definition children (e : Element) : list Element :=
  let (_, _, _, c) := e in c.

Fixpoint height (e : Element) : nat :=
  match e with
  | Elem _ _ _ cs => S (fold_right (fun c m => Nat.max (height c) m) 0 cs)
  end.

(** The stripped text of a node, empty when the node has none. *)
Definition stripped_text (e : Element) : string :=
  match text e with Some s => strip s | None => "" end.

(** ** Grouping stage

    [groups.setdefault(child.tag, []).append(child)] for each child in
    document order: tags in first-seen order, nodes of one tag in document
    order. *)

Fixpoint group_add (c : Element) (groups : list (string * list Element))
  : list (string * list Element) :=
  match groups with
  | [] => [(tag c, [c])]
  | (t, nodes) :: rest =>
      if String.eqb (tag c) t then (t, nodes ++ [c]) :: rest
      else (t, nodes) :: group_add c rest
  end.

Definition group_children (cs : list Element) : list (string * list Element) :=
  fold_left (fun groups c => group_add c groups) cs [].

(** ** Policy A: [expand_node] of [app.py] *)

(** [itertools.product] over the group lists: the leftmost list varies
    slowest. *)
Fixpoint product (A : Type) (lists : list (list A)) : list (list A) :=
  match lists with
  | [] => [[]]
  | l :: rest =>
      flat_map (fun x => map (fun combo => x :: combo) (product rest)) l
  end.

Definition row := Dict.t string.

(** [f"{path}_{element.tag}" if path else element.tag] *)
Definition node_prefix (path : string) (e : Element) : string :=
  if nonempty path then (path ++ "_" ++ tag e)%string else tag e.

(** The attribute loop: [base[f"{prefix}_{k}"] = v]. *)
Definition add_attributes (prefix : string) (attrs : list (string * string))
  (base : row) : row :=
  fold_left (fun b kv => Dict.set (prefix ++ "_" ++ fst kv)%string (snd kv) b)
            attrs base.

(** [merged = base.copy(); for row in combo: merged.update(row)] *)
Definition merge_combo (base : row) (combo : list row) : row :=
  fold_left (fun merged r => Dict.update merged r) combo base.

(** The body of [expand_node], with [rec] standing for the recursive call. *)
Definition expand_node_body (rec : Element -> row -> string -> list row)
  (element : Element) (context : row) (path : string) : list row :=
  let prefix := node_prefix path element in
  let base := add_attributes prefix (attrib element) context in
  let text := stripped_text element in
  if nonempty text && Nat.eqb (List.length (children element)) 0
  then [Dict.set prefix text base]
  else
    match children element with
    | [] => [base]
    | _ :: _ =>
        let groups := group_children (children element) in
        let expanded_groups :=
          map (fun g => flat_map (fun n => rec n base prefix) (snd g))
              groups in
        map (merge_combo base) (product expanded_groups)
    end.

(** The recursion goes through the groups, which hold the node's own
    children; [fuel] bounds its depth and [expand_node] supplies the height
    of the tree, which is always enough: [expand_node_eq] below is the
    equation of the source function. *)
Fixpoint expand_node_fuel (fuel : nat)
  : Element -> row -> string -> list row :=
  match fuel with
  | O => fun _ _ _ => []
  | S fuel' => expand_node_body (expand_node_fuel fuel')
  end.

Definition expand_node (element : Element) (context : row) (path : string)
  : list row :=
  expand_node_fuel (height element) element context path.

(** [parse_xml] after the parser: [expand_node(root, {}, "")]. *)
Definition parse_xml (root : Element) : list row :=
  expand_node root (Dict.empty string) "".

(** ** Policy A, second variant: [expand_node] of [version2.py]

    The same walk without a path: an attribute [k] goes to column
    [tag_@k], a leaf's text to column [tag]. *)

Definition add_attributes2 (t : string) (attrs : list (string * string))
  (base : row) : row :=
  fold_left (fun b kv => Dict.set (t ++ "_@" ++ fst kv)%string (snd kv) b)
            attrs base.

Definition expand_node2_body (rec : Element -> row -> list row)
  (element : Element) (context : row) : list row :=
  let base := add_attributes2 (tag element) (attrib element) context in
  let text := stripped_text element in
  if nonempty text && Nat.eqb (List.length (children element)) 0
  then [Dict.set (tag element) text base]
  else
    match children element with
    | [] => [base]
    | _ :: _ =>
        let groups := group_children (children element) in
        let expanded_groups :=
          map (fun g => flat_map (fun n => rec n base) (snd g)) groups in
        map (merge_combo base) (product expanded_groups)
    end.

Fixpoint expand_node2_fuel (fuel : nat) : Element -> row -> list row :=
  match fuel with
  | O => fun _ _ => []
  | S fuel' => expand_node2_body (expand_node2_fuel fuel')
  end.

Definition expand_node2 (element : Element) (context : row) : list row :=
  expand_node2_fuel (height element) element context.

(** ** Policy B: [XMLToSnowflakeETL] of [version3.py] *)

(** Row values: text and attribute strings, the load time stamp (a string)
    and the integer sequence number. *)
Inductive value : Type :=
| VStr (s : string)
| VInt (n : Z).

Definition value_eqb (a b : value) : bool :=
  match a, b with
  | VStr s, VStr s' => String.eqb s s'
  | VInt n, VInt n' => Z.eqb n n'
  | _, _ => false
  end.

Definition record := Dict.t value.

Definition record_eqb : record -> record -> bool := Dict.eqb value_eqb.

(** [element.text and element.text.strip()] *)
Definition has_text (e : Element) : bool := nonempty (stripped_text e).

(** [enumerate(children)] *)
Fixpoint enumerate_from (A : Type) (i : Z) (l : list A) : list (Z * A) :=
  match l with
  | [] => []
  | x :: l' => (i, x) :: enumerate_from (i + 1) l'
  end.

Definition enumerate (A : Type) (l : list A) : list (Z * A) :=
  enumerate_from 0 l.

(** The loop of [_flatten_element] over the groups, each of which holds one
    child by then: [child_result] of [children[0]] is merged into [result],
    and the first [None] ends the loop.  No group is empty, so the [[]]
    case is never reached. *)
Fixpoint flatten_children (rec : Element -> option record)
  (groups : list (string * list Element)) (result : record) : option record :=
  match groups with
  | [] => Some result
  | (_, nodes) :: rest =>
      match nodes with
      | [] => None
      | child :: _ =>
          match rec child with
          | None => None
          | Some child_result =>
              flatten_children rec rest (Dict.update result child_result)
          end
      end
  end.

(** The body of [_flatten_element]: [None] is the source's [None], the
    signal that a repeating group stands in the way. *)
Definition _flatten_element_body (rec : Element -> string -> option record)
  (element : Element) (prefix : string) : option record :=
  let result :=
    fold_left
      (fun r kv =>
         let key := if nonempty prefix
                    then (prefix ++ tag element ++ "_" ++ fst kv)%string
                    else (tag element ++ "_" ++ fst kv)%string in
         Dict.set key (VStr (snd kv)) r)
      (attrib element) (Dict.empty value) in
  let result :=
    if has_text element
    then Dict.set (if nonempty prefix then (prefix ++ tag element)%string
                   else tag element)
                  (VStr (stripped_text element)) result
    else result in
  let child_tags := group_children (children element) in
  if existsb (fun g => Nat.ltb 1 (List.length (snd g))) child_tags
  then None
  else
    let new_prefix :=
      if nonempty prefix then (prefix ++ tag element ++ "_")%string
      else (tag element ++ "_")%string in
    flatten_children (fun child => rec child new_prefix) child_tags result.

Fixpoint _flatten_element_fuel (fuel : nat)
  : Element -> string -> option record :=
  match fuel with
  | O => fun _ _ => None
  | S fuel' => _flatten_element_body (_flatten_element_fuel fuel')
  end.

Definition _flatten_element (element : Element) (prefix : string)
  : option record :=
  _flatten_element_fuel (height element) element prefix.

(** [child_tags[child.tag] += 1] on a [defaultdict(int)] *)
Fixpoint count_add (t : string) (counts : list (string * nat))
  : list (string * nat) :=
  match counts with
  | [] => [(t, 1)]
  | (t', n) :: rest =>
      if String.eqb t t' then (t', S n) :: rest else (t', n) :: count_add t rest
  end.

Definition tag_counts (cs : list Element) : list (string * nat) :=
  fold_left (fun counts c => count_add (tag c) counts) cs [].

Fixpoint _has_repetitive_descendants (element : Element) : bool :=
  match element with
  | Elem _ _ _ cs =>
      if existsb (fun kv => Nat.ltb 1 (snd kv)) (tag_counts cs) then true
      else existsb _has_repetitive_descendants cs
  end.

(** A Python dictionary is false when it is empty, and so is [None]. *)
Definition truthy (r : option record) : bool :=
  match r with
  | Some (_ :: _) => true
  | _ => false
  end.

(** The loop of [_extract_repetitive_data] over the non-repetitive
    children: it either runs to its end with the flattened data merged in,
    or stops at the first child whose flattening is [None] or empty, which
    the caller then recurses into. *)
Inductive inline_result : Type :=
| Inlined (current_data : record)
| Fallback (child : Element) (current_data : record).

Fixpoint inline_non_repetitive (non_repetitive : list (string * Element))
  (current_data : record) : inline_result :=
  match non_repetitive with
  | [] => Inlined current_data
  | (_, child) :: rest =>
      match _flatten_element child "" with
      | Some (kv :: flattened) =>
          inline_non_repetitive rest
            (Dict.update current_data (kv :: flattened))
      | _ => Fallback child current_data
      end
  end.

(** [repetitive] and [non_repetitive] of [_extract_repetitive_data] *)
Definition repetitive_groups (child_tags : list (string * list Element))
  : list (string * list Element) :=
  filter (fun g => Nat.ltb 1 (List.length (snd g))) child_tags.

Fixpoint non_repetitive_groups (child_tags : list (string * list Element))
  : list (string * Element) :=
  match child_tags with
  | [] => []
  | (t, nodes) :: rest =>
      if Nat.ltb 1 (List.length nodes) then non_repetitive_groups rest
      else match nodes with
           | [] => non_repetitive_groups rest
           | child :: _ => (t, child) :: non_repetitive_groups rest
           end
  end.

(** A node's own text and attributes written over a copy of [data]: the
    text under the tag when it is not blank, then each attribute [k] under
    [tag_k].  [_extract_repetitive_data] does this to [parent_data.copy()]
    and [flatten_xml] to a fresh dictionary. *)
Definition node_data (element : Element) (data : record) : record :=
  let data :=
    if has_text element
    then Dict.set (tag element) (VStr (stripped_text element)) data
    else data in
  fold_left (fun d kv => Dict.set (tag element ++ "_" ++ fst kv)%string
                                  (VStr (snd kv)) d)
            (attrib element) data.

Section PolicyB.

(** The reading of the clock, [datetime.now().isoformat()].  No decision of
    the code depends on it. *)
Variable now : string.

(** The body of [_extract_repetitive_data].  [collected_data] is the list
    the source appends to; it is passed in and returned. *)
Definition _extract_repetitive_data_body
  (rec : Element -> record -> list record -> string -> list record)
  (element : Element) (parent_data : record) (collected_data : list record)
  (table_name : string) : list record :=
  let child_tags := group_children (children element) in
  let repetitive := repetitive_groups child_tags in
  let non_repetitive := non_repetitive_groups child_tags in
  let current_data := node_data element parent_data in
  match inline_non_repetitive non_repetitive current_data with
  | Fallback child current_data =>
      rec child current_data collected_data table_name
  | Inlined current_data =>
      match repetitive with
      | _ :: _ =>
          fold_left
            (fun collected g =>
               fold_left
                 (fun collected ic =>
                    let row_data :=
                      Dict.set "_sequence_num" (VInt (fst ic + 1))
                               current_data in
                    rec (snd ic) row_data collected table_name)
                 (enumerate (snd g)) collected)
            repetitive collected_data
      | [] =>
          if negb (record_eqb current_data parent_data)
          then collected_data
                 ++ [Dict.set "_load_timestamp" (VStr now) current_data]
          else collected_data
      end
  end.

Fixpoint _extract_repetitive_data_fuel (fuel : nat)
  : Element -> record -> list record -> string -> list record :=
  match fuel with
  | O => fun _ _ collected_data _ => collected_data
  | S fuel' =>
      _extract_repetitive_data_body (_extract_repetitive_data_fuel fuel')
  end.

Definition _extract_repetitive_data (element : Element) (parent_data : record)
  (collected_data : list record) (table_name : string) : list record :=
  _extract_repetitive_data_fuel (height element) element parent_data
                                collected_data table_name.

(** [root.find] on the path of all descendants named [name]: the first
    descendant of [e], in document order, whose tag is [name]; [e] itself
    is not a candidate.  [name] is a plain tag name. *)
Fixpoint find_descendant (name : string) (e : Element) : option Element :=
  match e with
  | Elem _ _ _ cs =>
      (fix first (l : list Element) : option Element :=
         match l with
         | [] => None
         | c :: l' =>
             if String.eqb (tag c) name then Some c
             else match find_descendant name c with
                  | Some d => Some d
                  | None => first l'
                  end
         end) cs
  end.

Definition tables := Dict.t (list record).

(** One turn of the loop of [flatten_xml] over the level-1 children. *)
Definition flatten_level1 (tbls : tables) (child : Element) : tables :=
  let table_name := tag child in
  let collected_data : list record :=
    if _has_repetitive_descendants child then
      let parent_data := node_data child (Dict.empty value) in
      _extract_repetitive_data child parent_data [] table_name
    else
      match _flatten_element child "" with
      | Some (kv :: flattened) =>
          [Dict.set "_load_timestamp" (VStr now) (kv :: flattened)]
      | _ => []
      end in
  match collected_data with
  | _ :: _ => Dict.set table_name collected_data tbls
  | [] => tbls
  end.

(** The designated root: the root itself when it has the tag, and else
    the first descendant that has. *)
Definition select_data_element (data_node : string) (root : Element)
  : option Element :=
  if String.eqb (tag root) data_node then Some root
  else find_descendant data_node root.

Definition flatten_xml (data_node : string) (root : Element) : tables :=
  match select_data_element data_node root with
  | None => Dict.empty (list record)
  | Some data_element =>
      fold_left flatten_level1 (children data_element)
                (Dict.empty (list record))
  end.

End PolicyB.

(** ** Type inference: [_infer_snowflake_type]

    [int(s)] and [float(s)] succeed or raise [ValueError]; only that outcome
    matters here.  Both are modelled on their documented grammar for ASCII
    text: an optional sign, digits that may be separated by single
    underscores, and for [float] an optional fraction and exponent or one
    of [inf], [infinity], [nan] in any letter case.  Digits and white space
    outside ASCII and the interpreter's limit on the length of integer
    literals are left out. *)

Definition is_digit (c : ascii) : bool :=
  let n := nat_of_ascii c in Nat.leb 48 n && Nat.leb n 57.

(** After a digit: the longest run of [["_"] digit] groups is consumed and
    the rest returned. *)
Fixpoint digits_tail (s : string) : string :=
  match s with
  | EmptyString => EmptyString
  | String c r =>
      if is_digit c then digits_tail r
      else if Ascii.eqb c "_"
           then match r with
                | String d r' => if is_digit d then digits_tail r' else s
                | EmptyString => s
                end
           else s
  end.

(** [digitpart ::= digit (["_"] digit)*] at the head of [s]. *)
Definition digitpart (s : string) : option string :=
  match s with
  | String c r => if is_digit c then Some (digits_tail r) else None
  | EmptyString => None
  end.

Definition drop_sign (s : string) : string :=
  match s with
  | String c r => if Ascii.eqb c "+" || Ascii.eqb c "-" then r else s
  | EmptyString => s
  end.

(** [int(s)] does not raise. *)
Definition int_parses (s : string) : bool :=
  match digitpart (drop_sign (strip s)) with
  | Some EmptyString => true
  | _ => false
  end.

Definition to_lower (c : ascii) : ascii :=
  let n := nat_of_ascii c in
  if Nat.leb 65 n && Nat.leb n 90 then ascii_of_nat (n + 32) else c.

Fixpoint lower (s : string) : string :=
  match s with
  | EmptyString => EmptyString
  | String c r => String (to_lower c) (lower r)
  end.

(** [[exponent]] followed by the end of the text. *)
Definition exponent_then_end (s : string) : bool :=
  match s with
  | EmptyString => true
  | String c r =>
      if Ascii.eqb c "e" || Ascii.eqb c "E"
      then match digitpart (drop_sign r) with
           | Some EmptyString => true
           | _ => false
           end
      else false
  end.

(** [number ::= [digitpart] "." digitpart | digitpart ["."]] and then
    [exponent_then_end]. *)
Definition floatnumber (s : string) : bool :=
  match digitpart s with
  | Some (String "." r) =>
      match digitpart r with
      | Some r' => exponent_then_end r'
      | None => exponent_then_end r
      end
  | Some r => exponent_then_end r
  | None =>
      match s with
      | String "." r =>
          match digitpart r with
          | Some r' => exponent_then_end r'
          | None => false
          end
      | _ => false
      end
  end.

(** [float(s)] does not raise. *)
Definition float_parses (s : string) : bool :=
  let body := drop_sign (strip s) in
  let l := lower body in
  String.eqb l "inf" || String.eqb l "infinity" || String.eqb l "nan"
  || floatnumber body.

(** [s.count(c)] for a one-character [c] *)
Fixpoint count_char (c : ascii) (s : string) : nat :=
  match s with
  | EmptyString => 0
  | String c' r => (if Ascii.eqb c c' then 1 else 0) + count_char c r
  end.

Definition string_of_Z (n : Z) : string :=
  NilZero.string_of_int (Z.to_int n).

(** [str(value)] *)
Definition py_str (v : value) : string :=
  match v with
  | VStr s => s
  | VInt n => string_of_Z n
  end.

Definition strlen (s : string) : Z := Z.of_nat (String.length s).

(** [value] is [None] here when the column is absent. *)
Definition _infer_snowflake_type (value : option value) : string :=
  match value with
  | None => "VARCHAR(500)"
  | Some (VStr EmptyString) => "VARCHAR(500)"
  | Some v =>
      let value_str := strip (py_str v) in
      if int_parses value_str then "INTEGER"
      else if float_parses value_str then "FLOAT"
      else if (Z.eqb (strlen value_str) 8 || Z.eqb (strlen value_str) 10)
              && (Nat.eqb (count_char "-" value_str) 2
                  || Nat.eqb (count_char "/" value_str) 2)
      then "DATE"
      else
        let max_len := Z.max (strlen value_str) 100 in
        ("VARCHAR(" ++ string_of_Z (Z.min (max_len * 2) 16777216) ++ ")")%string
  end.

(** ** Notions used in the statements *)

(** The product of a list of numbers. *)
Definition product_of (l : list nat) : nat := fold_right Nat.mul 1 l.

(** The rows a tag group contributes: the sum over its nodes. *)
Definition group_rows (rows_of : Element -> nat) (g : string * list Element)
  : nat :=
  list_sum (map rows_of (snd g)).

Definition childless (e : Element) : bool :=
  match children e with [] => true | _ :: _ => false end.

Fixpoint distinct (l : list string) : bool :=
  match l with
  | [] => true
  | x :: l' => negb (existsb (String.eqb x) l') && distinct l'
  end.

(** No tag is repeated among the children of any node of the tree. *)
Fixpoint no_repeated_tags (e : Element) : bool :=
  match e with
  | Elem _ _ _ cs => distinct (map tag cs) && forallb no_repeated_tags cs
  end.

(** Some node of the tree has an attribute or non-blank text. *)
Fixpoint has_data (e : Element) : bool :=
  match e with
  | Elem _ a _ cs =>
      match a with _ :: _ => true | [] => false end
      || has_text e || existsb has_data cs
  end.


(** The scenario tree: data with two items, A with id 1 and B with id 2. *)
Definition scenario_item (id txt : string) : Element :=
  Elem "item" [("id", id)] (Some txt) [].

Definition scenario : Element :=
  Elem "data" [] None [scenario_item "1" "A"; scenario_item "2" "B"].

(** A node with two repeating groups, of two and of three leaves. *)
Definition leaf (t txt : string) : Element := Elem t [] (Some txt) [].

Definition two_by_three : Element :=
  Elem "r" [] None
       [leaf "a" "1"; leaf "a" "2"; leaf "b" "3"; leaf "b" "4"; leaf "b" "5"].

(** A tree without repeated tags: one level-1 child with data, one bare. *)
Definition flat_tree : Element :=
  Elem "data" []
       None
       [Elem "a" [("x", "1")] (Some "t") [Elem "c" [] (Some "u") []];
        Elem "b" [] None []].

(** A level-1 node with two repeating groups side by side. *)
Definition two_groups : Element :=
  Elem "t" [] None [leaf "a" "1"; leaf "a" "2"; leaf "b" "3"; leaf "b" "4"].

Definition side_by_side : Element := Elem "data" [] None [two_groups].

(** The value of key [k] after the rows of [combo] have been written, in
    order, over a dictionary in which it held [old]. *)
Definition last_write (k : string) (combo : list row) (old : option string)
  : option string :=
  fold_left (fun acc r => Dict.last_item k r acc) combo old.

(** Two sibling groups that write the same column. *)
Definition colliding : Element :=
  Elem "r" [] None [Elem "a" [("b", "1")] None []; leaf "a_b" "2"].

(** A node with a repeating group, a bare child and a child with text. *)
Definition bare : Element := Elem "x" [] None [].

Definition with_bare_child : Element :=
  Elem "p" [] None [leaf "a" "1"; leaf "a" "2"; bare; leaf "y" "3"].

(** ** Type inference as the specification words it

    The storage type of a non-empty text [s], in the order of the
    specification: integer literal, decimal literal, date shape, text sized
    from the length. *)
Definition date_shaped (s : string) : bool :=
  (Z.eqb (strlen s) 8 || Z.eqb (strlen s) 10)
  && (Nat.eqb (count_char "-" s) 2 || Nat.eqb (count_char "/" s) 2).

Definition typed_in_order (s : string) : string :=
  if int_parses s then "INTEGER"
  else if float_parses s then "FLOAT"
  else if date_shaped s then "DATE"
  else ("VARCHAR("
          ++ string_of_Z (Z.min (Z.max (strlen s) 100 * 2) 16777216)
          ++ ")")%string.





(** ** Configuration values and identifiers of [version3.py] *)

Definition dquote : ascii := ascii_of_nat 34.
Definition squote : ascii := ascii_of_nat 39.

Definition starts_with (c : ascii) (s : string) : bool :=
  match s with
  | String c' _ => Ascii.eqb c' c
  | EmptyString => false
  end.

Fixpoint ends_with (c : ascii) (s : string) : bool :=
  match s with
  | EmptyString => false
  | String c' EmptyString => Ascii.eqb c' c
  | String _ r => ends_with c r
  end.

Fixpoint drop_last (s : string) : string :=
  match s with
  | EmptyString => EmptyString
  | String _ EmptyString => EmptyString
  | String c r => String c (drop_last r)
  end.

(** [value[1:-1]] *)
Definition inner_slice (s : string) : string :=
  match s with
  | EmptyString => EmptyString
  | String _ r => drop_last r
  end.

(** [clean_value] of [_load_config]: one pair of matching quotes around a
    value is taken off. *)
Definition clean_value (value : string) : string :=
  if nonempty value && Nat.leb 2 (String.length value)
  then
    if (starts_with dquote value && ends_with dquote value)
       || (starts_with squote value && ends_with squote value)
    then inner_slice value
    else value
  else value.

(** [s.replace(old, new)] for one-character [old] and [new] *)
Fixpoint replace_char (old new : ascii) (s : string) : string :=
  match s with
  | EmptyString => EmptyString
  | String c r =>
      String (if Ascii.eqb c old then new else c) (replace_char old new r)
  end.

(** [s.upper()] on ASCII letters; other characters are kept. *)
Definition to_upper (c : ascii) : ascii :=
  let n := nat_of_ascii c in
  if Nat.leb 97 n && Nat.leb n 122 then ascii_of_nat (n - 32) else c.

Fixpoint upper (s : string) : string :=
  match s with
  | EmptyString => EmptyString
  | String c r => String (to_upper c) (upper r)
  end.

(** The column identifier of [_create_table_if_not_exists] and
    [_load_data_to_table]. *)
Definition safe_col_name (col_name : string) : string :=
  upper (replace_char "." "_" (replace_char "-" "_" col_name)).

(** ** Further notions used in the statements *)

(** The distinct elements of a list, each at its first occurrence. *)
Fixpoint first_seen (l : list string) : list string :=
  match l with
  | [] => []
  | x :: l' => x :: filter (fun y => negb (String.eqb y x)) (first_seen l')
  end.

Definition is_lower (c : ascii) : bool :=
  let n := nat_of_ascii c in Nat.leb 97 n && Nat.leb n 122.

Fixpoint all_chars (p : ascii -> bool) (s : string) : bool :=
  match s with
  | EmptyString => true
  | String c r => p c && all_chars p r
  end.

(** The storage types [_infer_snowflake_type] may return; a text column is
    at least 200 and at most 16777216 characters wide. *)
Definition storage_type (ty : string) : Prop :=
  ty = "INTEGER" \/ ty = "FLOAT" \/ ty = "DATE"
  \/ exists n : Z,
       (200 <= n <= 16777216)%Z
       /\ ty = ("VARCHAR(" ++ string_of_Z n ++ ")")%string.

(** A finished row of Policy B: stamped with the load time [now], and
    holding every column of [data]. *)
Definition finished_from (now : string) (data r : record) : Prop :=
  Dict.get "_load_timestamp" r = Some (VStr now)
  /\ forall k, Dict.mem k data = true -> Dict.mem k r = true.

(** Digits only: no sign, no separator, no white space. *)
Definition plain_digit (c : ascii) : bool :=
  is_digit c && negb (is_space c) && negb (Ascii.eqb c "+")
  && negb (Ascii.eqb c "-").

(** A character a column identifier may hold: no hyphen, no dot, no
    lower-case letter. *)
Definition clean_char (c : ascii) : bool :=
  negb (Ascii.eqb c "-") && negb (Ascii.eqb c ".") && negb (is_lower c).

(** * Properties *)

(** ** The model on small inputs *)

Example strip_both_ends : strip "  x y  " = "x y".
Proof. reflexivity. Qed.

Example strip_blank : strip "   " = "".
Proof. reflexivity. Qed.

Example groups_keep_first_seen_order :
  map (fun g => (fst g, map stripped_text (snd g)))
      (group_children [leaf "b" "1"; leaf "a" "2"; leaf "b" "3"])
  = [("b", ["1"; "3"]); ("a", ["2"])].
Proof. reflexivity. Qed.

Example product_order :
  product [[1; 2]; [3; 4]] = [[1; 3]; [1; 4]; [2; 3]; [2; 4]].
Proof. reflexivity. Qed.

Example int_literals :
  map int_parses ["42"; "-7"; "+0"; "1_000"; "1__0"; "_1"; "1_"; "4.2"; ""]
  = [true; true; true; true; false; false; false; false; false].
Proof. reflexivity. Qed.

Example float_literals :
  map float_parses
      ["3.14"; "1."; ".5"; "1e5"; "1.e-3"; "-inf"; "NaN"; "Infinity";
       "."; "e5"; "1e"; "0x10"; "1_.5"; "abc"; ""]
  = [true; true; true; true; true; true; true; true;
     false; false; false; false; false; false; false].
Proof. reflexivity. Qed.

Example dict_set_keeps_position :
  Dict.set "a" 3 [("a", 1); ("b", 2)] = [("a", 3); ("b", 2)]
  /\ Dict.set "c" 3 [("a", 1); ("b", 2)] = [("a", 1); ("b", 2); ("c", 3)].
Proof. split; reflexivity. Qed.

Example dict_eqb_ignores_order :
  record_eqb [("a", VStr "1"); ("b", VInt 2)] [("b", VInt 2); ("a", VStr "1")]
  = true.
Proof. reflexivity. Qed.

(** ** Dictionaries *)

Module DictFacts.

Section Facts.
Variable V : Type.
Implicit Types (d other : Dict.t V) (k : string) (v : V).

Lemma get_set_same k v d : Dict.get k (Dict.set k v d) = Some v.
Proof.
  induction d as [|[k' v'] d IH]; simpl.
  - now rewrite String.eqb_refl.
  - destruct (String.eqb k k') eqn:E; simpl; rewrite E; auto.
Qed.

Lemma get_set_other k k' v d :
  k <> k' -> Dict.get k (Dict.set k' v d) = Dict.get k d.
Proof.
  intros Hne. apply String.eqb_neq in Hne.
  induction d as [|[k0 v0] d IH]; simpl.
  - now rewrite Hne.
  - destruct (String.eqb k' k0) eqn:E; simpl.
    + apply String.eqb_eq in E. subst k0. now rewrite Hne.
    + now rewrite IH.
Qed.

Lemma get_set k k' v d :
  Dict.get k (Dict.set k' v d)
  = if String.eqb k k' then Some v else Dict.get k d.
Proof.
  destruct (String.eqb k k') eqn:E.
  - apply String.eqb_eq in E. subst. apply get_set_same.
  - apply String.eqb_neq in E. now apply get_set_other.
Qed.

Lemma keys_set k v d :
  Dict.keys (Dict.set k v d)
  = if Dict.mem k d then Dict.keys d else Dict.keys d ++ [k].
Proof.
  unfold Dict.mem. induction d as [|[k' v'] d IH]; simpl; auto.
  destruct (String.eqb k k') eqn:E; simpl; auto.
  rewrite IH. now destruct (Dict.get k d).
Qed.

Lemma get_None_keys k d : Dict.get k d = None <-> ~ In k (Dict.keys d).
Proof.
  induction d as [|[k' v'] d IH]; simpl.
  - tauto.
  - destruct (String.eqb k k') eqn:E.
    + apply String.eqb_eq in E. subst. split; [discriminate | tauto].
    + apply String.eqb_neq in E. rewrite IH. split.
      * intros H [H'|H']; [congruence | tauto].
      * tauto.
Qed.

Lemma wf_set k v d : Dict.wf d -> Dict.wf (Dict.set k v d).
Proof.
  unfold Dict.wf. intros H. rewrite keys_set. unfold Dict.mem.
  destruct (Dict.get k d) eqn:E; auto.
  apply get_None_keys in E.
  apply NoDup_app; auto.
  - constructor; [simpl; tauto | constructor].
  - intros x Hx [Hk|[]]. subst. tauto.
Qed.

Lemma wf_update d other : Dict.wf d -> Dict.wf (Dict.update d other).
Proof.
  unfold Dict.update. revert d.
  induction other as [|[k v] o IH]; simpl; intros d H; auto.
  apply IH. now apply wf_set.
Qed.

Lemma wf_get k v d : Dict.wf d -> In (k, v) d -> Dict.get k d = Some v.
Proof.
  unfold Dict.wf. induction d as [|[k' v'] d IH]; simpl; intros Hwf Hin.
  - contradiction.
  - inversion Hwf as [|? ? Hnot Hwf']; subst.
    destruct Hin as [Heq|Hin].
    + inversion Heq; subst. now rewrite String.eqb_refl.
    + destruct (String.eqb k k') eqn:E.
      * apply String.eqb_eq in E. subst k'. exfalso. apply Hnot.
        change (In (fst (k, v)) (map fst d)). now apply in_map.
      * auto.
Qed.

Lemma get_update k d other :
  Dict.get k (Dict.update d other) = Dict.last_item k other (Dict.get k d).
Proof.
  unfold Dict.update, Dict.last_item. revert d.
  induction other as [|[k' v'] o IH]; simpl; intros d; auto.
  rewrite IH. now rewrite get_set.
Qed.

Lemma last_item_absent k other old :
  Dict.get k other = None -> Dict.last_item k other old = old.
Proof.
  unfold Dict.last_item. revert old.
  induction other as [|[k' v'] o IH]; simpl; intros old H; auto.
  destruct (String.eqb k k'); [discriminate | auto].
Qed.

Lemma set_nonempty k v d : Dict.set k v d <> [].
Proof.
  destruct d as [|[k' v'] d]; simpl; [|destruct (String.eqb k k')];
    discriminate.
Qed.

Lemma update_nil_iff d other :
  Dict.update d other = [] <-> d = [] /\ other = [].
Proof.
  unfold Dict.update. revert d.
  induction other as [|[k v] o IH]; simpl; intros d.
  - tauto.
  - rewrite IH. split.
    + intros [H _]. now apply set_nonempty in H.
    + intros [_ H]. discriminate.
Qed.

Variable veqb : V -> V -> bool.
Hypothesis veqb_refl : forall v, veqb v v = true.

Lemma eqb_refl d : Dict.wf d -> Dict.eqb veqb d d = true.
Proof.
  intros Hwf. unfold Dict.eqb. rewrite Nat.eqb_refl. simpl.
  apply forallb_forall. intros [k v] Hin. simpl.
  now rewrite (wf_get _ _ Hwf Hin).
Qed.

End Facts.

End DictFacts.

Lemma value_eqb_refl (v : value) : value_eqb v v = true.
Proof. destruct v; simpl; [apply String.eqb_refl | apply Z.eqb_refl]. Qed.

(** ** Trees *)

Lemma height_child (c e : Element) : In c (children e) -> height c < height e.
Proof.
  destruct e as [t a x cs]. simpl. intros Hin.
  induction cs as [|c' cs IH]; simpl in *; [contradiction|].
  destruct Hin as [->|Hin]; [lia|]. specialize (IH Hin). lia.
Qed.

(** Induction on a tree, with the property at hand for every child. *)
Lemma Element_children_ind (P : Element -> Prop) :
  (forall e, (forall c, In c (children e) -> P c) -> P e) ->
  forall e, P e.
Proof.
  intros step.
  assert (H : forall n e, height e <= n -> P e).
  { induction n as [|n IH]; intros e Hh.
    - destruct e; simpl in Hh; lia.
    - apply step. intros c Hc. apply IH.
      pose proof (height_child c e Hc). lia. }
  intros e. now apply (H (height e)).
Qed.

(** ** Grouping *)

Lemma group_add_In c groups t nodes n :
  In (t, nodes) (group_add c groups) -> In n nodes ->
  n = c \/ exists nodes', In (t, nodes') groups /\ In n nodes'.
Proof.
  induction groups as [|[t' ns] rest IH]; simpl.
  - intros [H|[]] Hn. inversion H; subst. destruct Hn as [->|[]]. now left.
  - destruct (String.eqb (tag c) t') eqn:E; simpl.
    + intros [H|H] Hn.
      * inversion H; subst. apply in_app_or in Hn.
        destruct Hn as [Hn|[->|[]]]; [right|now left].
        exists ns. auto.
      * right. exists nodes. auto.
    + intros [H|H] Hn.
      * inversion H; subst. right. exists nodes. auto.
      * destruct (IH H Hn) as [->|[ns' [H1 H2]]]; [now left|].
        right. exists ns'. auto.
Qed.

Lemma group_fold_In cs : forall groups t nodes n,
  In (t, nodes) (fold_left (fun g c => group_add c g) cs groups) ->
  In n nodes ->
  In n cs \/ exists nodes', In (t, nodes') groups /\ In n nodes'.
Proof.
  induction cs as [|c cs IH]; simpl; intros groups t nodes n H Hn.
  - right. exists nodes. auto.
  - destruct (IH _ _ _ _ H Hn) as [Hin|[ns' [H1 H2]]]; [auto|].
    destruct (group_add_In _ _ _ _ _ H1 H2) as [->|Hex]; auto.
Qed.

(** Every node of every group is a child. *)
Lemma group_children_In cs g n :
  In g (group_children cs) -> In n (snd g) -> In n cs.
Proof.
  destruct g as [t nodes]. simpl. intros H Hn.
  destruct (group_fold_In cs [] t nodes n H Hn) as [Hin|[ns' [[] _]]]; auto.
Qed.

(** ** The recursive functions meet their source equations

    Each body looks at [rec] only on children of the node, whose height is
    smaller, so the fuel handed out by the wrappers never runs out. *)

Lemma flat_map_ext_in (A B : Type) (f g : A -> list B) (l : list A) :
  (forall a, In a l -> f a = g a) -> flat_map f l = flat_map g l.
Proof.
  induction l as [|a l IH]; simpl; intros H; auto.
  rewrite (H a), IH; auto.
Qed.

Lemma expand_node_body_local rec1 rec2 element :
  (forall c, In c (children element) ->
             forall ctx p, rec1 c ctx p = rec2 c ctx p) ->
  forall context path,
    expand_node_body rec1 element context path
    = expand_node_body rec2 element context path.
Proof.
  intros H context path. unfold expand_node_body.
  destruct (nonempty (stripped_text element)
            && Nat.eqb (List.length (children element)) 0); auto.
  destruct (children element) as [|c0 cs] eqn:Ecs; auto.
  do 2 f_equal. apply map_ext_in. intros g Hg.
  apply flat_map_ext_in. intros n Hn. apply H.
  eapply group_children_In; eauto.
Qed.

Lemma expand_node_fuel_stable n : forall m element context path,
  height element <= n -> height element <= m ->
  expand_node_fuel n element context path
  = expand_node_fuel m element context path.
Proof.
  induction n as [|n IH]; intros m element context path Hn Hm.
  - destruct element; simpl in Hn; lia.
  - destruct m as [|m]; [destruct element; simpl in Hm; lia|].
    simpl. apply expand_node_body_local. intros c Hc ctx p.
    pose proof (height_child c element Hc). apply IH; lia.
Qed.

Lemma expand_node_eq element context path :
  expand_node element context path
  = expand_node_body expand_node element context path.
Proof.
  unfold expand_node at 1.
  destruct (height element) as [|h] eqn:Eh; [destruct element; discriminate|].
  simpl. apply expand_node_body_local. intros c Hc ctx p.
  pose proof (height_child c element Hc).
  unfold expand_node. apply expand_node_fuel_stable; lia.
Qed.

Lemma expand_node2_body_local rec1 rec2 element :
  (forall c, In c (children element) -> forall ctx, rec1 c ctx = rec2 c ctx) ->
  forall context,
    expand_node2_body rec1 element context
    = expand_node2_body rec2 element context.
Proof.
  intros H context. unfold expand_node2_body.
  destruct (nonempty (stripped_text element)
            && Nat.eqb (List.length (children element)) 0); auto.
  destruct (children element) as [|c0 cs] eqn:Ecs; auto.
  do 2 f_equal. apply map_ext_in. intros g Hg.
  apply flat_map_ext_in. intros n Hn. apply H.
  eapply group_children_In; eauto.
Qed.

Lemma expand_node2_fuel_stable n : forall m element context,
  height element <= n -> height element <= m ->
  expand_node2_fuel n element context = expand_node2_fuel m element context.
Proof.
  induction n as [|n IH]; intros m element context Hn Hm.
  - destruct element; simpl in Hn; lia.
  - destruct m as [|m]; [destruct element; simpl in Hm; lia|].
    simpl. apply expand_node2_body_local. intros c Hc ctx.
    pose proof (height_child c element Hc). apply IH; lia.
Qed.

Lemma expand_node2_eq element context :
  expand_node2 element context
  = expand_node2_body expand_node2 element context.
Proof.
  unfold expand_node2 at 1.
  destruct (height element) as [|h] eqn:Eh; [destruct element; discriminate|].
  simpl. apply expand_node2_body_local. intros c Hc ctx.
  pose proof (height_child c element Hc).
  unfold expand_node2. apply expand_node2_fuel_stable; lia.
Qed.

Lemma flatten_children_local rec1 rec2 groups : forall result,
  (forall g c, In g groups -> In c (snd g) -> rec1 c = rec2 c) ->
  flatten_children rec1 groups result = flatten_children rec2 groups result.
Proof.
  induction groups as [|[t nodes] rest IH]; simpl; intros result H; auto.
  destruct nodes as [|child nodes]; auto.
  rewrite (H (t, child :: nodes) child); simpl; auto.
  destruct (rec2 child); auto.
  apply IH. intros g c Hg Hc. apply (H g c); auto.
Qed.

Lemma _flatten_element_body_local rec1 rec2 element :
  (forall c, In c (children element) -> forall p, rec1 c p = rec2 c p) ->
  forall prefix,
    _flatten_element_body rec1 element prefix
    = _flatten_element_body rec2 element prefix.
Proof.
  intros H prefix. unfold _flatten_element_body.
  destruct (existsb _ (group_children (children element))); auto.
  apply flatten_children_local. intros g c Hg Hc. apply H.
  eapply group_children_In; eauto.
Qed.

Lemma _flatten_element_fuel_stable n : forall m element prefix,
  height element <= n -> height element <= m ->
  _flatten_element_fuel n element prefix
  = _flatten_element_fuel m element prefix.
Proof.
  induction n as [|n IH]; intros m element prefix Hn Hm.
  - destruct element; simpl in Hn; lia.
  - destruct m as [|m]; [destruct element; simpl in Hm; lia|].
    simpl. apply _flatten_element_body_local. intros c Hc p.
    pose proof (height_child c element Hc). apply IH; lia.
Qed.

Lemma _flatten_element_eq element prefix :
  _flatten_element element prefix
  = _flatten_element_body _flatten_element element prefix.
Proof.
  unfold _flatten_element at 1.
  destruct (height element) as [|h] eqn:Eh; [destruct element; discriminate|].
  simpl. apply _flatten_element_body_local. intros c Hc p.
  pose proof (height_child c element Hc).
  unfold _flatten_element. apply _flatten_element_fuel_stable; lia.
Qed.

Lemma fold_left_ext_in (A B : Type) (f g : A -> B -> A) (l : list B) :
  (forall a x, In x l -> f a x = g a x) ->
  forall a, fold_left f l a = fold_left g l a.
Proof.
  induction l as [|x l IH]; simpl; intros H a; auto.
  rewrite (H a x); auto.
Qed.

Lemma enumerate_from_In (A : Type) (l : list A) : forall i ix,
  In ix (enumerate_from i l) -> In (snd ix) l.
Proof.
  induction l as [|x l IH]; simpl; intros i ix H; auto.
  destruct H as [<-|H]; simpl; eauto.
Qed.

Lemma repetitive_groups_In groups g :
  In g (repetitive_groups groups) -> In g groups.
Proof. unfold repetitive_groups. intros H. now apply filter_In in H. Qed.

Lemma non_repetitive_groups_In groups t c :
  In (t, c) (non_repetitive_groups groups) ->
  exists nodes, In (t, nodes) groups /\ In c nodes.
Proof.
  induction groups as [|[t' nodes] rest IH]; simpl; [contradiction|].
  intros H.
  assert (Hrest : In (t, c) (non_repetitive_groups rest) ->
                  exists nodes0, ((t', nodes) = (t, nodes0)
                                  \/ In (t, nodes0) rest) /\ In c nodes0).
  { intros H'. destruct (IH H') as [ns [H1 H2]]. exists ns. auto. }
  destruct (Nat.ltb 1 (List.length nodes)); auto.
  destruct nodes as [|child nodes]; auto.
  destruct H as [H|H]; auto.
  inversion H; subst. exists (c :: nodes). simpl. auto.
Qed.

Lemma inline_non_repetitive_Fallback nr : forall cur child cur',
  inline_non_repetitive nr cur = Fallback child cur' ->
  exists t, In (t, child) nr.
Proof.
  induction nr as [|[t c] rest IH]; simpl; intros cur child cur' H.
  - discriminate.
  - destruct (_flatten_element c "") as [[|kv fl]|].
    + inversion H; subst. eauto.
    + destruct (IH _ _ _ H) as [t' Ht']. eauto.
    + inversion H; subst. eauto.
Qed.

Section PolicyBEquations.
Variable now : string.

Lemma _extract_repetitive_data_body_local rec1 rec2 element :
  (forall c, In c (children element) ->
             forall pd cd tn, rec1 c pd cd tn = rec2 c pd cd tn) ->
  forall parent_data collected_data table_name,
    _extract_repetitive_data_body now rec1 element parent_data collected_data
                                  table_name
    = _extract_repetitive_data_body now rec2 element parent_data collected_data
                                    table_name.
Proof.
  intros H parent_data collected_data table_name.
  unfold _extract_repetitive_data_body.
  destruct (inline_non_repetitive _ _) as [cur|child cur] eqn:Einl.
  - destruct (repetitive_groups _) as [|g0 gs] eqn:Erep; auto.
    apply fold_left_ext_in. intros acc g Hg.
    apply fold_left_ext_in. intros acc' ic Hic.
    apply H. apply enumerate_from_In in Hic.
    rewrite <- Erep in Hg. apply repetitive_groups_In in Hg.
    eapply group_children_In; eauto.
  - apply H. apply inline_non_repetitive_Fallback in Einl.
    destruct Einl as [t Ht]. apply non_repetitive_groups_In in Ht.
    destruct Ht as [nodes [H1 H2]].
    apply (group_children_In _ (t, nodes) child H1 H2).
Qed.

Lemma _extract_repetitive_data_fuel_stable n :
  forall m element parent_data collected_data table_name,
    height element <= n -> height element <= m ->
    _extract_repetitive_data_fuel now n element parent_data collected_data
                                  table_name
    = _extract_repetitive_data_fuel now m element parent_data collected_data
                                    table_name.
Proof.
  induction n as [|n IH]; intros m element pd cd tn Hn Hm.
  - destruct element; simpl in Hn; lia.
  - destruct m as [|m]; [destruct element; simpl in Hm; lia|].
    simpl. apply _extract_repetitive_data_body_local. intros c Hc pd' cd' tn'.
    pose proof (height_child c element Hc). apply IH; lia.
Qed.

Lemma _extract_repetitive_data_eq element parent_data collected_data
      table_name :
  _extract_repetitive_data now element parent_data collected_data table_name
  = _extract_repetitive_data_body now (_extract_repetitive_data now) element
                                  parent_data collected_data table_name.
Proof.
  unfold _extract_repetitive_data at 1.
  destruct (height element) as [|h] eqn:Eh; [destruct element; discriminate|].
  simpl. apply _extract_repetitive_data_body_local. intros c Hc pd cd tn.
  pose proof (height_child c element Hc).
  unfold _extract_repetitive_data.
  apply _extract_repetitive_data_fuel_stable; lia.
Qed.

End PolicyBEquations.

(** ** Policy A: row counts *)

Lemma length_product (A : Type) (lists : list (list A)) :
  List.length (product lists) = product_of (map (@List.length A) lists).
Proof.
  induction lists as [|l rest IH]; simpl; auto.
  induction l as [|x l IHl]; simpl; auto.
  rewrite length_app, length_map, IHl, IH. reflexivity.
Qed.

Lemma length_flat_map_sum (A B : Type) (f : A -> list B) (l : list A) :
  List.length (flat_map f l) = list_sum (map (fun a => List.length (f a)) l).
Proof.
  induction l as [|a l IH]; simpl; auto.
  now rewrite length_app, IH.
Qed.

(** The row count of any node: the product over its tag groups of the rows
    of each group. *)
Lemma expand_node_length element context path :
  let prefix := node_prefix path element in
  let base := add_attributes prefix (attrib element) context in
  List.length (expand_node element context path)
  = product_of
      (map (group_rows (fun n => List.length (expand_node n base prefix)))
           (group_children (children element))).
Proof.
  intros prefix base. rewrite expand_node_eq. unfold expand_node_body.
  fold prefix. fold base.
  destruct (children element) as [|c cs] eqn:Ecs.
  - destruct (nonempty (stripped_text element)); reflexivity.
  - rewrite andb_false_r.
    rewrite length_map, length_product, map_map.
    f_equal. apply map_ext. intros g. unfold group_rows.
    apply length_flat_map_sum.
Qed.

Lemma expand_node_childless n context path :
  childless n = true -> List.length (expand_node n context path) = 1.
Proof.
  unfold childless. intros H. rewrite expand_node_eq. unfold expand_node_body.
  destruct (children n); [|discriminate].
  destruct (nonempty (stripped_text n)); reflexivity.
Qed.

(** C5. In Policy A the number of rows [expand_node] returns for a
    branching node is the product, over the node's tag groups, of the sum
    of the row counts of the nodes of the group; a node whose children form
    two groups, of two and of three childless nodes, yields six rows. *)
Theorem expand_node_row_count element context path :
  children element <> [] ->
  let prefix := node_prefix path element in
  let base := add_attributes prefix (attrib element) context in
  List.length (expand_node element context path)
  = product_of
      (map (group_rows (fun n => List.length (expand_node n base prefix)))
           (group_children (children element)))
  /\ (forall t1 a1 a2 t2 b1 b2 b3,
         group_children (children element)
         = [(t1, [a1; a2]); (t2, [b1; b2; b3])] ->
         forallb childless (children element) = true ->
         List.length (expand_node element context path) = 6).
Proof.
  intros _ prefix base. split.
  - apply expand_node_length.
  - intros t1 a1 a2 t2 b1 b2 b3 Hg Hleaf.
    rewrite expand_node_length, Hg. fold prefix. fold base.
    assert (H1 : forall n, In n [a1; a2; b1; b2; b3] ->
                           List.length (expand_node n base prefix) = 1).
    { intros n Hn. apply expand_node_childless.
      rewrite forallb_forall in Hleaf. apply Hleaf.
      assert (Hn' : In n ([a1; a2] ++ [b1; b2; b3])) by exact Hn.
      apply in_app_or in Hn'. destruct Hn' as [Hn'|Hn'].
      - apply (group_children_In _ (t1, [a1; a2])); [rewrite Hg|]; simpl; auto.
      - apply (group_children_In _ (t2, [b1; b2; b3])); [rewrite Hg|];
          simpl; auto. }
    unfold group_rows. simpl.
    rewrite !H1 by (simpl; auto 6). reflexivity.
Qed.

Lemma expand_node_row_count_witness :
  List.length (expand_node two_by_three (Dict.empty string) "") = 6.
Proof.
  refine (proj2 (expand_node_row_count two_by_three (Dict.empty string) "" _)
                "a" (leaf "a" "1") (leaf "a" "2")
                "b" (leaf "b" "3") (leaf "b" "4") (leaf "b" "5") _ _).
  - discriminate.
  - reflexivity.
  - reflexivity.
Defined.

(** ** Trees without repeated tags *)

Lemma group_add_fresh c groups :
  (forall g, In g groups -> fst g <> tag c) ->
  group_add c groups = groups ++ [(tag c, [c])].
Proof.
  induction groups as [|[t nodes] rest IH]; simpl; intros H; auto.
  destruct (String.eqb (tag c) t) eqn:E.
  - apply String.eqb_eq in E. exfalso. apply (H (t, nodes)); auto.
  - rewrite IH; auto.
Qed.

Lemma existsb_eqb_false x l :
  existsb (String.eqb x) l = false -> ~ In x l.
Proof.
  intros H Hin. assert (existsb (String.eqb x) l = true); [|congruence].
  apply existsb_exists. exists x. split; auto. apply String.eqb_refl.
Qed.

Lemma group_fold_distinct cs : forall groups,
  distinct (map tag cs) = true ->
  (forall c g, In c cs -> In g groups -> fst g <> tag c) ->
  fold_left (fun g c => group_add c g) cs groups
  = groups ++ map (fun c => (tag c, [c])) cs.
Proof.
  induction cs as [|c cs IH]; simpl; intros groups Hd Hfresh.
  - now rewrite app_nil_r.
  - apply andb_prop in Hd. destruct Hd as [Hc Hd].
    apply negb_true_iff in Hc. apply existsb_eqb_false in Hc.
    rewrite group_add_fresh by (intros g Hg; apply (Hfresh c g); auto).
    rewrite IH; auto.
    + now rewrite <- app_assoc.
    + intros c' g Hc' Hg. apply in_app_or in Hg.
      destruct Hg as [Hg|[<-|[]]]; [apply (Hfresh c' g); auto|].
      simpl. intros Heq. apply Hc. rewrite Heq. now apply in_map.
Qed.

(** Distinct tags: every child is a group of its own, in document order. *)
Lemma group_children_distinct cs :
  distinct (map tag cs) = true ->
  group_children cs = map (fun c => (tag c, [c])) cs.
Proof.
  intros H. unfold group_children.
  rewrite group_fold_distinct;
    [reflexivity | assumption | intros c g _ []].
Qed.

Lemma no_repeated_tags_children e :
  no_repeated_tags e = true ->
  distinct (map tag (children e)) = true
  /\ forall c, In c (children e) -> no_repeated_tags c = true.
Proof.
  destruct e as [t a x cs]. simpl. intros H.
  apply andb_prop in H. destruct H as [H1 H2]. split; auto.
  now apply forallb_forall.
Qed.

Lemma product_of_ones (A : Type) (f : A -> nat) (l : list A) :
  (forall a, In a l -> f a = 1) -> product_of (map f l) = 1.
Proof.
  induction l as [|a l IH]; simpl; intros H; auto.
  rewrite (H a), IH; auto.
Qed.

Lemma expand_node_no_repeats : forall element,
  no_repeated_tags element = true ->
  forall context path, List.length (expand_node element context path) = 1.
Proof.
  induction element as [element IH] using Element_children_ind.
  intros Hnr context path.
  destruct (no_repeated_tags_children element Hnr) as [Hd Hcs].
  rewrite expand_node_length, (group_children_distinct _ Hd), map_map.
  apply product_of_ones. intros c Hc. unfold group_rows. simpl.
  rewrite IH; auto.
Qed.

Lemma count_add_fresh t counts :
  (forall kv, In kv counts -> fst kv <> t) ->
  count_add t counts = counts ++ [(t, 1)].
Proof.
  induction counts as [|[t' n] rest IH]; simpl; intros H; auto.
  destruct (String.eqb t t') eqn:E.
  - apply String.eqb_eq in E. exfalso. apply (H (t', n)); auto.
  - rewrite IH; auto.
Qed.

Lemma count_fold_distinct cs : forall counts,
  distinct (map tag cs) = true ->
  (forall c kv, In c cs -> In kv counts -> fst kv <> tag c) ->
  fold_left (fun k c => count_add (tag c) k) cs counts
  = counts ++ map (fun c => (tag c, 1)) cs.
Proof.
  induction cs as [|c cs IH]; simpl; intros counts Hd Hfresh.
  - now rewrite app_nil_r.
  - apply andb_prop in Hd. destruct Hd as [Hc Hd].
    apply negb_true_iff in Hc. apply existsb_eqb_false in Hc.
    rewrite count_add_fresh by (intros kv Hkv; apply (Hfresh c kv); auto).
    rewrite IH; auto.
    + now rewrite <- app_assoc.
    + intros c' kv Hc' Hkv. apply in_app_or in Hkv.
      destruct Hkv as [Hkv|[<-|[]]]; [apply (Hfresh c' kv); auto|].
      simpl. intros Heq. apply Hc. rewrite Heq. now apply in_map.
Qed.

Lemma existsb_false_forall (A : Type) (f : A -> bool) (l : list A) :
  (forall a, In a l -> f a = false) -> existsb f l = false.
Proof.
  induction l as [|a l IH]; simpl; intros H; auto.
  rewrite (H a), IH; auto.
Qed.

Lemma no_repeats_not_repetitive : forall element,
  no_repeated_tags element = true ->
  _has_repetitive_descendants element = false.
Proof.
  induction element as [element IH] using Element_children_ind.
  intros Hnr.
  destruct (no_repeated_tags_children element Hnr) as [Hd Hcs].
  destruct element as [t a x cs]. simpl in *.
  unfold tag_counts.
  rewrite count_fold_distinct;
    [simpl | assumption | intros c kv _ []].
  rewrite existsb_false_forall.
  - apply existsb_false_forall. auto.
  - intros kv Hkv. apply in_map_iff in Hkv.
    destruct Hkv as [c [<- _]]. reflexivity.
Qed.

Lemma fold_left_nil_iff (A B : Type) (F : list B -> A -> list B)
      (l : list A) :
  (forall r a, F r a <> []) ->
  forall d, fold_left F l d = [] <-> l = [] /\ d = [].
Proof.
  intros HF. induction l as [|a l IH]; simpl; intros d.
  - tauto.
  - rewrite IH. split.
    + intros [_ H]. now apply HF in H.
    + intros [H _]. discriminate.
Qed.

Lemma flatten_children_singletons rec cs :
  (forall c, In c cs ->
             exists r, rec c = Some r /\ (r = [] <-> has_data c = false)) ->
  forall result,
  exists r, flatten_children rec (map (fun c => (tag c, [c])) cs) result
            = Some r
            /\ (r = [] <-> result = [] /\ existsb has_data cs = false).
Proof.
  induction cs as [|c cs IH]; simpl; intros H result.
  - exists result. split; auto. tauto.
  - destruct (H c) as [rc [Hrc Hnil]]; auto.
    rewrite Hrc.
    destruct (IH (fun c' Hc' => H c' (or_intror Hc'))
                 (Dict.update result rc)) as [r [Hr Hr']].
    exists r. split; auto.
    rewrite Hr'. split.
    + intros [Hu He]. apply DictFacts.update_nil_iff in Hu.
      destruct Hu as [Hres Hrc0]. apply Hnil in Hrc0.
      rewrite Hrc0. auto.
    + intros [Hres Hor]. apply orb_false_iff in Hor.
      destruct Hor as [Hc He]. split; auto.
      apply DictFacts.update_nil_iff. split; auto. now apply Hnil.
Qed.

Lemma singletons_not_repetitive cs :
  existsb (fun g : string * list Element => Nat.ltb 1 (List.length (snd g)))
          (map (fun c => (tag c, [c])) cs) = false.
Proof.
  apply existsb_false_forall. intros g Hg. apply in_map_iff in Hg.
  destruct Hg as [c [<- _]]. reflexivity.
Qed.

(** Without repeated tags [_flatten_element] never gives up, and its
    result is empty exactly when the subtree holds no attribute and no
    text. *)
Lemma flatten_no_repeats : forall element,
  no_repeated_tags element = true ->
  forall prefix,
  exists r, _flatten_element element prefix = Some r
            /\ (r = [] <-> has_data element = false).
Proof.
  induction element as [element IH] using Element_children_ind.
  intros Hnr prefix.
  destruct (no_repeated_tags_children element Hnr) as [Hd Hcs].
  rewrite _flatten_element_eq. unfold _flatten_element_body.
  rewrite (group_children_distinct _ Hd), singletons_not_repetitive.
  match goal with
  | |- context [flatten_children ?rec _ ?res] =>
      destruct (flatten_children_singletons rec (children element)
                  (fun c Hc => IH c Hc (Hcs c Hc) _) res) as [r [Hr Hnil]]
  end.
  exists r. split; [exact Hr|].
  rewrite Hnil. clear Hr Hnil IH.
  destruct element as [t a x cs]. simpl children. simpl attrib.
  cbn [has_data]. rewrite !orb_false_iff.
  destruct (has_text (Elem t a x cs)) eqn:Ht.
  - split; [intros [H _]; now apply DictFacts.set_nonempty in H|].
    intros [[_ H] _]. discriminate.
  - match goal with
    | |- context [fold_left ?F a ?d] =>
        pose proof (fold_left_nil_iff F a
                      (fun r kv => DictFacts.set_nonempty _ _ r) d) as Hfold
    end.
    split.
    + intros [H He]. apply Hfold in H. destruct H as [-> _]. auto.
    + intros [[Ha _] He]. split; auto. apply Hfold.
      destruct a; [auto | discriminate].
Qed.

Section PolicyBTables.
Variable now : string.

Lemma flatten_level1_other tbls child t :
  t <> tag child ->
  Dict.get t (flatten_level1 now tbls child) = Dict.get t tbls.
Proof.
  intros Hne. unfold flatten_level1.
  match goal with |- context [match ?x with [] => _ | _ :: _ => _ end] =>
    destruct x end; auto.
  now apply DictFacts.get_set_other.
Qed.

Lemma flatten_level1_fold_other cs : forall tbls t,
  ~ In t (map tag cs) ->
  Dict.get t (fold_left (flatten_level1 now) cs tbls) = Dict.get t tbls.
Proof.
  induction cs as [|c cs IH]; simpl; intros tbls t Hnot; auto.
  rewrite IH by tauto. apply flatten_level1_other. intros ->. tauto.
Qed.

Lemma flatten_level1_no_repeats tbls child :
  no_repeated_tags child = true ->
  exists r,
    _flatten_element child "" = Some r
    /\ flatten_level1 now tbls child
       = if has_data child
         then Dict.set (tag child)
                       [Dict.set "_load_timestamp" (VStr now) r] tbls
         else tbls.
Proof.
  intros Hnr. unfold flatten_level1.
  rewrite (no_repeats_not_repetitive _ Hnr).
  destruct (flatten_no_repeats _ Hnr "") as [r [Hr Hnil]].
  exists r. split; auto. rewrite Hr.
  destruct r as [|kv r].
  - destruct (has_data child); auto.
    destruct Hnil as [Hnil _]. now specialize (Hnil eq_refl).
  - destruct (has_data child); auto.
    destruct Hnil as [_ Hnil]. now specialize (Hnil eq_refl).
Qed.

Lemma flatten_level1_fold_no_repeats cs : forall tbls,
  distinct (map tag cs) = true ->
  (forall c, In c cs -> no_repeated_tags c = true) ->
  forall c, In c cs ->
  exists r,
    _flatten_element c "" = Some r
    /\ Dict.get (tag c) (fold_left (flatten_level1 now) cs tbls)
       = if has_data c
         then Some [Dict.set "_load_timestamp" (VStr now) r]
         else Dict.get (tag c) tbls.
Proof.
  induction cs as [|c0 cs IH]; simpl; intros tbls Hd Hnr c Hc.
  - contradiction.
  - apply andb_prop in Hd. destruct Hd as [Hc0 Hd].
    apply negb_true_iff in Hc0. apply existsb_eqb_false in Hc0.
    destruct Hc as [->|Hc].
    + destruct (flatten_level1_no_repeats tbls c) as [r [Hr Hl]]; auto.
      exists r. split; auto.
      rewrite flatten_level1_fold_other by exact Hc0.
      rewrite Hl. destruct (has_data c); auto.
      apply DictFacts.get_set_same.
    + destruct (IH (flatten_level1 now tbls c0) Hd
                   (fun c' Hc' => Hnr c' (or_intror Hc')) c Hc)
        as [r [Hr Hg]].
      exists r. split; auto. rewrite Hg.
      destruct (has_data c); auto.
      apply flatten_level1_other. intros Heq. apply Hc0.
      rewrite <- Heq. now apply in_map.
Qed.

End PolicyBTables.

Lemma find_descendant_no_repeats name : forall e d,
  find_descendant name e = Some d ->
  no_repeated_tags e = true -> no_repeated_tags d = true.
Proof.
  induction e as [e IH] using Element_children_ind.
  intros d Hfind Hnr.
  destruct (no_repeated_tags_children e Hnr) as [_ Hcs].
  destruct e as [t a x cs]. simpl in Hfind, Hcs, IH. clear Hnr.
  induction cs as [|c cs IHcs]; [discriminate|].
  destruct (String.eqb (tag c) name).
  - inversion Hfind; subst. apply Hcs. simpl. auto.
  - destruct (find_descendant name c) as [d'|] eqn:Ec.
    + inversion Hfind; subst.
      apply (IH c);
        [left; reflexivity | exact Ec | apply Hcs; left; reflexivity].
    + apply IHcs; auto.
      * intros c' Hc'. apply IH. simpl. auto.
      * intros c' Hc'. apply Hcs. simpl. auto.
Qed.

(** C7. When no tag is repeated among the children of any node, Policy A
    yields exactly one row, and in Policy B every level-1 child of the
    designated root that holds some text or attribute gets a table, under
    its tag, of exactly one row: its flattening and the load time stamp; a
    level-1 child without data gets no table. *)
Theorem no_repeated_tags_one_row now data_node root :
  no_repeated_tags root = true ->
  (forall context path, List.length (expand_node root context path) = 1)
  /\ (forall d, select_data_element data_node root = Some d ->
        forall c, In c (children d) ->
        exists r,
          _flatten_element c "" = Some r
          /\ Dict.get (tag c) (flatten_xml now data_node root)
             = if has_data c
               then Some [Dict.set "_load_timestamp" (VStr now) r]
               else None).
Proof.
  intros Hnr. split.
  - now apply expand_node_no_repeats.
  - intros d Hsel c Hc. unfold flatten_xml. rewrite Hsel.
    assert (Hd : no_repeated_tags d = true).
    { unfold select_data_element in Hsel.
      destruct (String.eqb (tag root) data_node).
      - now inversion Hsel; subst.
      - eapply find_descendant_no_repeats; eauto. }
    destruct (no_repeated_tags_children d Hd) as [Hdist Hcs].
    apply (flatten_level1_fold_no_repeats now (children d)
             (Dict.empty (list record)) Hdist Hcs c Hc).
Qed.

Lemma no_repeated_tags_one_row_witness :
  List.length (expand_node flat_tree (Dict.empty string) "") = 1
  /\ exists r,
       _flatten_element (Elem "b" [] None []) "" = Some r
       /\ Dict.get "b" (flatten_xml "2026" "data" flat_tree) = None.
Proof.
  destruct (no_repeated_tags_one_row "2026" "data" flat_tree eq_refl)
    as [HA HB].
  split.
  - apply HA.
  - apply (HB flat_tree eq_refl (Elem "b" [] None [])). simpl. auto.
Defined.

(** ** Policy B: the designated root *)




(** ** The scenario tree under both policies *)

(** C1, as stated, fails: under Policy B the scenario tree has no table
    "item" of two rows with sequence numbers 1 and 2. *)
Lemma scenario_policy_b_counterexample :
  ~ exists r1 r2,
      Dict.get "item" (flatten_xml "2026-11-03T10:00:00" "data" scenario)
      = Some [r1; r2]
      /\ Dict.get "_sequence_num" r1 = Some (VInt 1)
      /\ Dict.get "_sequence_num" r2 = Some (VInt 2).
Proof.
  intros (r1 & r2 & H & _). vm_compute in H. discriminate.
Qed.

(** C1, amended. Policy A on the scenario tree returns exactly two rows,
    with the columns [data_item_id] and [data_item]; Policy B with root tag
    "data" returns one table, named "item", each row of which has the
    columns [item_id], [item] and [_load_timestamp] and no
    [_sequence_num]: level-1 children are flattened one at a time, and
    sequence numbers are given only inside a level-1 child. *)
Theorem scenario_rows :
  expand_node scenario (Dict.empty string) ""
  = [[("data_item_id", "1"); ("data_item", "A")];
     [("data_item_id", "2"); ("data_item", "B")]]
  /\ forall now,
       exists rows,
         flatten_xml now "data" scenario = [("item", rows)]
         /\ rows <> []
         /\ Forall (fun r =>
                      Dict.keys r = ["item_id"; "item"; "_load_timestamp"]
                      /\ Dict.get "_sequence_num" r = None)
                   rows.
Proof.
  split; [reflexivity|].
  intros now. eexists. split; [vm_compute; reflexivity|].
  split; [discriminate|].
  repeat constructor.
Qed.

(** C3 on the code: two level-1 children with one tag.  The table of the
    scenario tree holds the row of the second [item] only; the row of the
    first, which is the whole table when the first stands alone, is gone
    once the second has been processed. *)
Theorem level1_same_tag_replaces :
  forall now,
    flatten_xml now "data" (Elem "data" [] None [scenario_item "1" "A"])
    = [("item", [[("item_id", VStr "1"); ("item", VStr "A");
                  ("_load_timestamp", VStr now)]])]
    /\ flatten_xml now "data" scenario
       = [("item", [[("item_id", VStr "2"); ("item", VStr "B");
                     ("_load_timestamp", VStr now)]])].
Proof. intros now. split; vm_compute; reflexivity. Qed.

(** ** Policy B: the fan-out of repeating groups *)

Lemma fold_left_app_acc (A B : Type) (f : list A -> B -> list A) (l : list B) :
  (forall x, In x l -> forall acc, f acc x = acc ++ f [] x) ->
  forall acc, fold_left f l acc = acc ++ flat_map (f []) l.
Proof.
  induction l as [|x l IH]; simpl; intros H acc.
  - now rewrite app_nil_r.
  - rewrite IH by auto. rewrite (H x) by auto. now rewrite app_assoc.
Qed.

Lemma fallback_child_In cs cur child cur' :
  inline_non_repetitive (non_repetitive_groups (group_children cs)) cur
  = Fallback child cur' ->
  In child cs.
Proof.
  intros H. apply inline_non_repetitive_Fallback in H.
  destruct H as [t Ht]. apply non_repetitive_groups_In in Ht.
  destruct Ht as [nodes [H1 H2]].
  apply (group_children_In _ (t, nodes) child H1 H2).
Qed.

Lemma repetitive_child_In cs g (ic : Z * Element) :
  In g (repetitive_groups (group_children cs)) ->
  In ic (enumerate (snd g)) -> In (snd ic) cs.
Proof.
  intros Hg Hic. apply enumerate_from_In in Hic.
  apply repetitive_groups_In in Hg.
  eapply group_children_In; eauto.
Qed.

Section FanOut.
Variable now : string.

(** The rows a call collects are appended to the ones collected before. *)
Lemma _extract_repetitive_data_app : forall element parent_data collected tn,
  _extract_repetitive_data now element parent_data collected tn
  = collected ++ _extract_repetitive_data now element parent_data [] tn.
Proof.
  induction element as [element IH] using Element_children_ind.
  intros parent_data collected tn.
  rewrite (_extract_repetitive_data_eq now element parent_data collected).
  rewrite (_extract_repetitive_data_eq now element parent_data []).
  unfold _extract_repetitive_data_body.
  destruct (inline_non_repetitive _ _) as [cur|child cur] eqn:Einl.
  - destruct (repetitive_groups _) as [|g0 gs] eqn:Erep.
    + destruct (negb (record_eqb cur parent_data)); simpl; auto.
      now rewrite app_nil_r.
    + rewrite <- Erep.
      assert (Hinner : forall g,
                 In g (repetitive_groups (group_children (children element))) ->
                 forall acc,
                   fold_left
                     (fun collected0 (ic : Z * Element) =>
                        _extract_repetitive_data now (snd ic)
                          (Dict.set "_sequence_num" (VInt (fst ic + 1)) cur)
                          collected0 tn)
                     (enumerate (snd g)) acc
                   = acc ++ fold_left
                       (fun collected0 (ic : Z * Element) =>
                          _extract_repetitive_data now (snd ic)
                            (Dict.set "_sequence_num" (VInt (fst ic + 1)) cur)
                            collected0 tn)
                       (enumerate (snd g)) []).
      { intros g Hg acc.
        rewrite (fold_left_app_acc _ (enumerate (snd g))
                   (fun ic Hic acc' =>
                      IH (snd ic) (repetitive_child_In _ _ _ Hg Hic) _ acc' tn)
                   acc).
        rewrite (fold_left_app_acc _ (enumerate (snd g))
                   (fun ic Hic acc' =>
                      IH (snd ic) (repetitive_child_In _ _ _ Hg Hic) _ acc' tn)
                   []).
        reflexivity. }
      rewrite (fold_left_app_acc _ _ Hinner collected).
      rewrite (fold_left_app_acc _ _ Hinner []).
      reflexivity.
  - apply IH. eapply fallback_child_In; eauto.
Qed.

(** C2, amended. When a node's non-repetitive children have been flattened
    inline, its repeating groups are fanned out one after the other, in
    first-seen order: each child of each group is recursed into on its
    own, with the node's data and the child's 1-based rank, and the rows
    of all these branches are concatenated.  A later group is not
    processed inside the branches of an earlier one, and the row count is
    the sum over the groups, not a product. *)
Theorem fan_out_group_by_group element parent_data table_name current_data :
  inline_non_repetitive
    (non_repetitive_groups (group_children (children element)))
    (node_data element parent_data) = Inlined current_data ->
  repetitive_groups (group_children (children element)) <> [] ->
  let branch (ic : Z * Element) :=
    _extract_repetitive_data now (snd ic)
      (Dict.set "_sequence_num" (VInt (fst ic + 1)) current_data)
      [] table_name in
  let repetitive := repetitive_groups (group_children (children element)) in
  _extract_repetitive_data now element parent_data [] table_name
  = flat_map (fun g => flat_map branch (enumerate (snd g))) repetitive
  /\ List.length
       (_extract_repetitive_data now element parent_data [] table_name)
     = list_sum
         (map (fun g => list_sum (map (fun ic => List.length (branch ic))
                                      (enumerate (snd g))))
              repetitive).
Proof.
  intros Hinl Hrep branch repetitive.
  assert (Heq : _extract_repetitive_data now element parent_data [] table_name
                = flat_map (fun g => flat_map branch (enumerate (snd g)))
                           repetitive).
  { assert (Hinner : forall (g : string * list Element) acc,
               fold_left
                 (fun collected0 (ic : Z * Element) =>
                    _extract_repetitive_data now (snd ic)
                      (Dict.set "_sequence_num" (VInt (fst ic + 1))
                                current_data)
                      collected0 table_name)
                 (enumerate (snd g)) acc
               = acc ++ flat_map branch (enumerate (snd g))).
    { intros g acc.
      apply (fold_left_app_acc _ (enumerate (snd g))
               (fun ic Hic acc' =>
                  _extract_repetitive_data_app (snd ic) _ acc' table_name)). }
    rewrite _extract_repetitive_data_eq. unfold _extract_repetitive_data_body.
    rewrite Hinl. subst repetitive.
    destruct (repetitive_groups (group_children (children element)))
      as [|g0 gs]; [contradiction|].
    rewrite fold_left_app_acc.
    - rewrite app_nil_l. apply flat_map_ext_in. intros g Hg.
      apply (Hinner g []).
    - intros g Hg acc. rewrite (Hinner g acc), (Hinner g []). reflexivity. }
  split; [exact Heq|].
  rewrite Heq, length_flat_map_sum. f_equal. apply map_ext. intros g.
  apply length_flat_map_sum.
Qed.

End FanOut.

Lemma fan_out_group_by_group_witness :
  _extract_repetitive_data "2026" two_groups (Dict.empty value) [] "t"
  = flat_map
      (fun g : string * list Element =>
         flat_map
           (fun ic : Z * Element =>
              _extract_repetitive_data "2026" (snd ic)
                (Dict.set "_sequence_num" (VInt (fst ic + 1))
                          (Dict.empty value))
                [] "t")
           (enumerate (snd g)))
      (repetitive_groups (group_children (children two_groups))).
Proof.
  refine (proj1 (fan_out_group_by_group "2026" two_groups (Dict.empty value)
                   "t" (current_data := Dict.empty value) eq_refl _)).
  vm_compute. discriminate.
Defined.

(** C2, as stated, fails: with two repeating groups [a] and [b] side by
    side the table has four rows, two per group, and the rows of [b] are
    rows of their own that hold nothing of [a]; had [b] been processed
    inside the branches of [a], every row holding [b] would hold [a], the
    row being carried forward. *)
Lemma side_by_side_counterexample :
  flatten_xml "2026" "data" side_by_side
  = [("t",
      [[("_sequence_num", VInt 1); ("a", VStr "1");
        ("_load_timestamp", VStr "2026")];
       [("_sequence_num", VInt 2); ("a", VStr "2");
        ("_load_timestamp", VStr "2026")];
       [("_sequence_num", VInt 1); ("b", VStr "3");
        ("_load_timestamp", VStr "2026")];
       [("_sequence_num", VInt 2); ("b", VStr "4");
        ("_load_timestamp", VStr "2026")]])]
  /\ ~ (forall rows r,
          Dict.get "t" (flatten_xml "2026" "data" side_by_side) = Some rows ->
          In r rows -> Dict.mem "b" r = true -> Dict.mem "a" r = true).
Proof.
  split; [vm_compute; reflexivity|].
  intros H.
  specialize (H _ [("_sequence_num", VInt 1); ("b", VStr "3");
                   ("_load_timestamp", VStr "2026")] eq_refl).
  simpl in H. discriminate H; auto.
Qed.

(** ** Policy B: a non-repetitive child that does not flatten *)

Lemma inline_non_repetitive_stops pre : forall cur current_data t child post,
  inline_non_repetitive pre cur = Inlined current_data ->
  truthy (_flatten_element child "") = false ->
  inline_non_repetitive (pre ++ (t, child) :: post) cur
  = Fallback child current_data.
Proof.
  induction pre as [|[t0 c0] pre IH]; simpl;
    intros cur current_data t child post Hpre Hfalse.
  - inversion Hpre; subst.
    destruct (_flatten_element child "") as [[|kv fl]|]; auto. discriminate.
  - destruct (_flatten_element c0 "") as [[|kv fl]|]; try discriminate.
    now apply IH.
Qed.

Lemma node_data_wf element data :
  Dict.wf data -> Dict.wf (node_data element data).
Proof.
  intros H. unfold node_data.
  assert (H' : Dict.wf (if has_text element
                        then Dict.set (tag element)
                                      (VStr (stripped_text element)) data
                        else data)).
  { destruct (has_text element); auto. now apply DictFacts.wf_set. }
  revert H'. generalize (if has_text element
                         then Dict.set (tag element)
                                       (VStr (stripped_text element)) data
                         else data).
  induction (attrib element) as [|kv l IH]; simpl; intros d Hd; auto.
  apply IH. now apply DictFacts.wf_set.
Qed.

Lemma inline_non_repetitive_wf nr : forall cur current_data,
  inline_non_repetitive nr cur = Inlined current_data ->
  Dict.wf cur -> Dict.wf current_data.
Proof.
  induction nr as [|[t c] nr IH]; simpl; intros cur current_data H Hwf.
  - now inversion H; subst.
  - destruct (_flatten_element c "") as [[|kv fl]|]; try discriminate.
    apply (IH _ _ H). exact (DictFacts.wf_update (kv :: fl) Hwf).
Qed.

Lemma _flatten_element_bare child prefix :
  attrib child = [] -> has_text child = false -> children child = [] ->
  _flatten_element child prefix = Some [].
Proof.
  intros Ha Ht Hc. rewrite _flatten_element_eq. unfold _flatten_element_body.
  rewrite Ha, Ht, Hc. reflexivity.
Qed.

Lemma _extract_repetitive_data_bare now child data collected table_name :
  attrib child = [] -> has_text child = false -> children child = [] ->
  Dict.wf data ->
  _extract_repetitive_data now child data collected table_name = collected.
Proof.
  intros Ha Ht Hc Hwf. rewrite _extract_repetitive_data_eq.
  unfold _extract_repetitive_data_body, node_data.
  rewrite Ha, Ht, Hc. simpl.
  unfold record_eqb. rewrite DictFacts.eqb_refl; auto.
  apply value_eqb_refl.
Qed.

(** C10. A non-repetitive child without attributes, text and children
    flattens to the empty dictionary, and the caller treats an empty
    dictionary as it treats [None]: at the first non-repetitive child whose
    flattening is either, [_extract_repetitive_data] recurses into that
    child with the data gathered so far and returns, so the non-repetitive
    groups after it and all the repeating groups are skipped; when the
    child is such a bare one, the call adds no row at all. *)
Theorem bare_child_ends_extraction now element parent_data collected
        table_name pre t child post current_data :
  non_repetitive_groups (group_children (children element))
  = pre ++ (t, child) :: post ->
  inline_non_repetitive pre (node_data element parent_data)
  = Inlined current_data ->
  (truthy (_flatten_element child "") = false ->
   _extract_repetitive_data now element parent_data collected table_name
   = _extract_repetitive_data now child current_data collected table_name)
  /\ (attrib child = [] -> has_text child = false -> children child = [] ->
      _flatten_element child "" = Some []
      /\ truthy (_flatten_element child "") = truthy None
      /\ (Dict.wf parent_data ->
          _extract_repetitive_data now element parent_data collected table_name
          = collected)).
Proof.
  intros Hnr Hpre.
  assert (Hstop : truthy (_flatten_element child "") = false ->
                  _extract_repetitive_data now element parent_data collected
                                           table_name
                  = _extract_repetitive_data now child current_data collected
                                             table_name).
  { intros Hfalse.
    rewrite (_extract_repetitive_data_eq now element).
    unfold _extract_repetitive_data_body.
    rewrite Hnr.
    now rewrite (inline_non_repetitive_stops pre _ t child post Hpre Hfalse). }
  split; [exact Hstop|].
  intros Ha Ht Hc.
  pose proof (_flatten_element_bare child "" Ha Ht Hc) as Hflat.
  split; [exact Hflat|]. split; [now rewrite Hflat|].
  intros Hwf. rewrite Hstop by now rewrite Hflat.
  apply _extract_repetitive_data_bare; auto.
  eapply inline_non_repetitive_wf; [exact Hpre|].
  now apply node_data_wf.
Qed.

Lemma bare_child_ends_extraction_witness :
  _extract_repetitive_data "2026" with_bare_child (Dict.empty value) [] "p"
  = [].
Proof.
  refine (proj2 (proj2 (proj2
            (bare_child_ends_extraction "2026" with_bare_child
               (Dict.empty value) [] "p" [] "x" bare [("y", leaf "y" "3")]
               (current_data := Dict.empty value) eq_refl eq_refl)
            eq_refl eq_refl eq_refl)) _).
  constructor.
Defined.

(** ** Type inference *)





(** ** Policy A: branching nodes *)

Lemma expand_node_branching t a x c cs context path :
  expand_node (Elem t a x (c :: cs)) context path
  = let prefix := node_prefix path (Elem t a x (c :: cs)) in
    let base := add_attributes prefix a context in
    map (merge_combo base)
        (product (map (fun g => flat_map (fun n => expand_node n base prefix)
                                         (snd g))
                      (group_children (c :: cs)))).
Proof.
  rewrite expand_node_eq. unfold expand_node_body.
  simpl children. simpl attrib. simpl List.length.
  now rewrite andb_false_r.
Qed.

Lemma expand_node2_branching t a x c cs context :
  expand_node2 (Elem t a x (c :: cs)) context
  = let base := add_attributes2 t a context in
    map (merge_combo base)
        (product (map (fun g => flat_map (fun n => expand_node2 n base) (snd g))
                      (group_children (c :: cs)))).
Proof.
  rewrite expand_node2_eq. unfold expand_node2_body.
  simpl children. simpl attrib. simpl List.length. simpl tag.
  now rewrite andb_false_r.
Qed.

(** ** Policy A: the merge of sibling groups *)

Lemma get_merge_combo k combo : forall base,
  Dict.get k (merge_combo base combo) = last_write k combo (Dict.get k base).
Proof.
  unfold merge_combo, last_write.
  induction combo as [|r combo IH]; simpl; intros base; auto.
  now rewrite IH, DictFacts.get_update.
Qed.

(** A member of the product picks one element from each list. *)
Lemma product_In (A : Type) (lists : list (list A)) : forall combo,
  In combo (product lists) -> Forall2 (fun x l => In x l) combo lists.
Proof.
  induction lists as [|l rest IH]; simpl; intros combo H.
  - destruct H as [<-|[]]. constructor.
  - apply in_flat_map in H. destruct H as [x [Hx H]].
    apply in_map_iff in H. destruct H as [combo' [<- Hc]].
    constructor; auto.
Qed.

Lemma merged_rows base lists r :
  In r (map (merge_combo base) (product lists)) ->
  exists combo,
    Forall2 (fun x l => In x l) combo lists
    /\ r = merge_combo base combo
    /\ forall k, Dict.get k r = last_write k combo (Dict.get k base).
Proof.
  intros H. apply in_map_iff in H. destruct H as [combo [<- Hc]].
  exists combo. split; [now apply product_In|]. split; auto.
  intros k. apply get_merge_combo.
Qed.

(** C6, as stated, fails: the sibling groups [a] and [a_b] of one node
    both write column [r_a_b]; the row of group [a] holds "1" there, and
    the one output row holds "2", the value of the later sibling. *)
Lemma sibling_overwrite_counterexample :
  expand_node (Elem "a" [("b", "1")] None []) (Dict.empty string) "r"
  = [[("r_a_b", "1")]]
  /\ expand_node (leaf "a_b" "2") (Dict.empty string) "r"
     = [[("r_a_b", "2")]]
  /\ expand_node colliding (Dict.empty string) "" = [[("r_a_b", "2")]]
  /\ expand_node2
       (Elem "r" [] None [leaf "a" "1"; Elem "b" [] None [leaf "a" "2"]])
       (Dict.empty string)
     = [[("a", "2")]].
Proof. repeat split. Qed.

(** C6, amended. Every row a branching node returns is the base merged
    with one row picked from each tag group, in group order, and a key
    holds in it the value written last: a value written by one group stays
    unless the row picked from a later sibling group holds the same key,
    in which case the later one replaces it.  This holds for [app.py] and
    for [version2.py]. *)
Theorem merge_last_write_wins element context path :
  children element <> [] ->
  (let prefix := node_prefix path element in
   let base := add_attributes prefix (attrib element) context in
   let lists :=
     map (fun g => flat_map (fun n => expand_node n base prefix) (snd g))
         (group_children (children element)) in
   forall r, In r (expand_node element context path) ->
     exists combo,
       Forall2 (fun x l => In x l) combo lists
       /\ r = merge_combo base combo
       /\ forall k, Dict.get k r = last_write k combo (Dict.get k base))
  /\ (let base := add_attributes2 (tag element) (attrib element) context in
      let lists :=
        map (fun g => flat_map (fun n => expand_node2 n base) (snd g))
            (group_children (children element)) in
      forall r, In r (expand_node2 element context) ->
        exists combo,
          Forall2 (fun x l => In x l) combo lists
          /\ r = merge_combo base combo
          /\ forall k, Dict.get k r = last_write k combo (Dict.get k base)).
Proof.
  intros Hcs. destruct element as [t a x [|c cs]]; [contradiction|].
  split.
  - intros prefix base lists r Hr.
    rewrite expand_node_branching in Hr. now apply merged_rows.
  - intros base lists r Hr.
    rewrite expand_node2_branching in Hr. now apply merged_rows.
Qed.

Lemma merge_last_write_wins_witness :
  exists combo : list row,
    [("r_a_b", "2")] = merge_combo (Dict.empty string) combo
    /\ Dict.get "r_a_b" [("r_a_b", "2")] = last_write "r_a_b" combo None.
Proof.
  assert (Hcs : children colliding <> []) by discriminate.
  destruct (proj1 (merge_last_write_wins colliding (Dict.empty string) "" Hcs)
                  [("r_a_b", "2")] (or_introl eq_refl))
    as [combo [_ [H1 H2]]].
  exists combo. split; [exact H1 | exact (H2 "r_a_b")].
Defined.

(** ** Policy A: mixed content *)

Lemma prefix_nil (k : string) : String.prefix "" k = true.
Proof. now destruct k. Qed.

Lemma append_empty_r (s : string) : (s ++ "")%string = s.
Proof. induction s as [|c s IH]; simpl; congruence. Qed.

Lemma prefix_app (s t : string) : String.prefix s (s ++ t) = true.
Proof.
  induction s as [|c s IH]; simpl.
  - apply prefix_nil.
  - destruct (ascii_dec c c); [exact IH | congruence].
Qed.

Lemma prefix_refl (s : string) : String.prefix s s = true.
Proof. rewrite <- (append_empty_r s) at 2. apply prefix_app. Qed.

Lemma prefix_app_inv (s t k : string) :
  String.prefix (s ++ t) k = true -> String.prefix s k = true.
Proof.
  revert k. induction s as [|c s IH]; simpl; intros k H.
  - apply prefix_nil.
  - destruct k as [|c' k]; [discriminate|]. simpl in *.
    destruct (ascii_dec c c'); [now apply IH | discriminate].
Qed.

Lemma prefix_longer (s : string) (c : ascii) (t : string) :
  String.prefix (s ++ String c t) s = false.
Proof.
  induction s as [|c' s IH]; simpl; auto.
  destruct (ascii_dec c' c'); [exact IH | reflexivity].
Qed.

Lemma In_set (V : Type) (k k' : string) (v v' : V) (d : Dict.t V) :
  In (k, v) (Dict.set k' v' d) -> (k = k' /\ v = v') \/ In (k, v) d.
Proof.
  induction d as [|[k0 v0] d IH]; simpl.
  - intros [H|[]]. inversion H; auto.
  - destruct (String.eqb k' k0) eqn:E; simpl.
    + apply String.eqb_eq in E. subst k0.
      intros [H|H]; [inversion H; auto | auto].
    + intros [H|H]; [auto | destruct (IH H); auto].
Qed.

Lemma In_update (V : Type) (kv : string * V) (other : Dict.t V) :
  forall d, In kv (Dict.update d other) -> In kv d \/ In kv other.
Proof.
  unfold Dict.update.
  induction other as [|[k' v'] o IH]; simpl; intros d H; auto.
  destruct kv as [k v].
  apply IH in H. destruct H as [H|H]; auto.
  apply In_set in H. destruct H as [[-> ->]|H]; auto.
Qed.

Lemma In_merge_combo (kv : string * string) (combo : list row) :
  forall base, In kv (merge_combo base combo) ->
               In kv base \/ exists r, In r combo /\ In kv r.
Proof.
  unfold merge_combo.
  induction combo as [|r combo IH]; simpl; intros base H; auto.
  apply IH in H. destruct H as [H|[r' [Hr' Hkv]]].
  - apply In_update in H. destruct H as [H|H]; auto.
    right. exists r. auto.
  - right. exists r'. auto.
Qed.

Lemma In_add_attributes prefix attrs k v : forall context,
  In (k, v) (add_attributes prefix attrs context) ->
  In (k, v) context \/ exists a, k = (prefix ++ "_" ++ a)%string.
Proof.
  unfold add_attributes.
  induction attrs as [|[a w] attrs IH]; simpl; intros context H; auto.
  apply IH in H. destruct H as [H|H]; auto.
  apply In_set in H. destruct H as [[-> _]|H]; eauto.
Qed.

Lemma Forall2_In_pick (A : Type) (combo : list A) (lists : list (list A)) x :
  Forall2 (fun y l => In y l) combo lists -> In x combo ->
  exists l, In l lists /\ In x l.
Proof.
  induction 1 as [|y l combo' lists' Hy _ IH]; simpl; [contradiction|].
  intros [<-|Hx].
  - exists l. auto.
  - destruct (IH Hx) as [l' [H1 H2]]. exists l'. auto.
Qed.

(** A row picked from the expansion of a branching node's groups is a
    row of one of the node's children. *)
Lemma picked_row_child (rec : Element -> list row) cs combo x :
  Forall2 (fun (y : row) l => In y l) combo
          (map (fun g : string * list Element => flat_map rec (snd g))
               (group_children cs)) ->
  In x combo ->
  exists n, In n cs /\ In x (rec n).
Proof.
  intros HF Hx.
  destruct (@Forall2_In_pick _ _ _ _ HF Hx) as [l [Hl Hxl]].
  apply in_map_iff in Hl. destruct Hl as [g [<- Hg]].
  apply in_flat_map in Hxl. destruct Hxl as [n [Hn Hxn]].
  exists n. split; auto. eapply group_children_In; eauto.
Qed.

(** Whatever [expand_node] puts into a row beyond the context sits under a
    column that starts with the node's prefix. *)
Lemma expand_node_items : forall element context path r k v,
  In r (expand_node element context path) -> In (k, v) r ->
  In (k, v) context \/ String.prefix (node_prefix path element) k = true.
Proof.
  induction element as [element IH] using Element_children_ind.
  intros context path r k v Hr Hkv.
  assert (Hbase : In (k, v) (add_attributes (node_prefix path element)
                                            (attrib element) context) ->
                  In (k, v) context
                  \/ String.prefix (node_prefix path element) k = true).
  { intros H. apply In_add_attributes in H. destruct H as [H|[a ->]]; auto.
    right. apply prefix_app. }
  rewrite expand_node_eq in Hr. unfold expand_node_body in Hr.
  destruct (nonempty (stripped_text element)
            && Nat.eqb (List.length (children element)) 0).
  - destruct Hr as [<-|[]].
    apply In_set in Hkv. destruct Hkv as [[-> _]|H]; auto.
    right. apply prefix_refl.
  - destruct (children element) as [|c cs] eqn:Ecs.
    + destruct Hr as [<-|[]]. auto.
    + apply merged_rows in Hr. destruct Hr as [combo [HF [-> _]]].
      apply In_merge_combo in Hkv. destruct Hkv as [H|[x [Hx Hkvx]]]; auto.
      destruct (@picked_row_child _ _ _ _ HF Hx) as [n [Hn Hxn]].
      destruct (IH n Hn _ _ _ _ _ Hxn Hkvx) as [H|H]; auto.
      right. unfold node_prefix in H at 1.
      destruct (nonempty (node_prefix path element)) eqn:En.
      * now apply prefix_app_inv in H.
      * destruct (node_prefix path element); [apply prefix_nil | discriminate].
Qed.

Lemma node_prefix_nonempty path element :
  tag element <> "" -> nonempty (node_prefix path element) = true.
Proof.
  intros Ht. unfold node_prefix. destruct path as [|c path]; simpl; auto.
  destruct (tag element); [contradiction | reflexivity].
Qed.

(** C9. A node with non-blank text and at least one child gets no column
    for its text.  [expand_node] returns the very rows it returns for the
    same node without text, under the column naming of [app.py] and under
    that of [version2.py]; in [app.py], where the column of the node is its
    prefix, a row holds that column only when the context held it already,
    with the same value.  The text column is written only for a node with
    text and no child, whose single row is the base with the text stored
    under the node's column. *)
Theorem mixed_content_text_dropped t a s cs context path :
  cs <> [] ->
  nonempty (strip s) = true ->
  expand_node (Elem t a (Some s) cs) context path
  = expand_node (Elem t a None cs) context path
  /\ expand_node2 (Elem t a (Some s) cs) context
     = expand_node2 (Elem t a None cs) context
  /\ (t <> "" ->
      forall r v,
        In r (expand_node (Elem t a (Some s) cs) context path) ->
        In (node_prefix path (Elem t a (Some s) cs), v) r ->
        In (node_prefix path (Elem t a (Some s) cs), v) context)
  /\ expand_node (Elem t a (Some s) []) context path
     = (let prefix := node_prefix path (Elem t a (Some s) []) in
        [Dict.set prefix (strip s) (add_attributes prefix a context)])
  /\ expand_node2 (Elem t a (Some s) []) context
     = [Dict.set t (strip s) (add_attributes2 t a context)].
Proof.
  intros Hcs Htext. destruct cs as [|c cs]; [contradiction|].
  split; [now rewrite !expand_node_branching|].
  split; [now rewrite !expand_node2_branching|].
  split.
  - intros Ht r v Hr Hkv.
    set (P := node_prefix path (Elem t a (Some s) (c :: cs))) in *.
    assert (HP : nonempty P = true) by now apply node_prefix_nonempty.
    assert (Hneq : forall x, P <> (P ++ "_" ++ x)%string).
    { intros x Heq.
      pose proof (prefix_longer P "_" x) as Hl.
      change (String "_" x) with ("_" ++ x)%string in Hl.
      rewrite <- Heq in Hl. now rewrite prefix_refl in Hl. }
    rewrite expand_node_branching in Hr. fold P in Hr. cbv zeta in Hr.
    apply merged_rows in Hr. destruct Hr as [combo [HF [-> _]]].
    assert (Hbase : In (P, v) (add_attributes P a context)).
    { apply In_merge_combo in Hkv. destruct Hkv as [H|[x [Hx Hkvx]]]; auto.
      destruct (@picked_row_child _ _ _ _ HF Hx) as [n [Hn Hxn]].
      destruct (@expand_node_items _ _ _ _ _ _ Hxn Hkvx) as [H|H]; auto.
      unfold node_prefix in H. rewrite HP in H.
      pose proof (prefix_longer P "_" (tag n)) as Hl.
      change (String "_" (tag n)) with ("_" ++ tag n)%string in Hl.
      congruence. }
    apply In_add_attributes in Hbase. destruct Hbase as [H|[x Hx]]; auto.
    now apply Hneq in Hx.
  - split.
    + rewrite expand_node_eq. unfold expand_node_body, stripped_text.
      simpl. now rewrite Htext.
    + rewrite expand_node2_eq. unfold expand_node2_body, stripped_text.
      simpl. now rewrite Htext.
Qed.

Lemma mixed_content_text_dropped_witness :
  expand_node (Elem "p" [] (Some " note ") [leaf "q" "1"])
              (Dict.empty string) ""
  = expand_node (Elem "p" [] None [leaf "q" "1"]) (Dict.empty string) "".
Proof.
  refine (proj1 (mixed_content_text_dropped "p" [] " note "
                   (cs := [leaf "q" "1"]) (Dict.empty string) "" _ _)).
  - discriminate.
  - reflexivity.
Defined.

(** * Further properties of the code *)

(** ** The grouping stage *)

Lemma get_group_add t c (groups : list (string * list Element)) :
  Dict.get t (group_add c groups)
  = if String.eqb t (tag c)
    then Some (match Dict.get t groups with Some l => l | None => [] end
               ++ [c])
    else Dict.get t groups.
Proof.
  induction groups as [|[t' nodes] rest IH]; simpl.
  - destruct (String.eqb t (tag c)); reflexivity.
  - destruct (String.eqb (tag c) t') eqn:E; simpl.
    + apply String.eqb_eq in E. subst t'.
      destruct (String.eqb t (tag c)); reflexivity.
    + rewrite IH. destruct (String.eqb t t') eqn:E'; auto.
      apply String.eqb_eq in E'. subst t'.
      rewrite String.eqb_sym in E. now rewrite E.
Qed.

Lemma get_group_fold cs : forall (groups : list (string * list Element)) t,
  Dict.get t (fold_left (fun g c => group_add c g) cs groups)
  = match Dict.get t groups, filter (fun c => String.eqb (tag c) t) cs with
    | None, [] => None
    | Some l, f => Some (l ++ f)
    | None, f => Some f
    end.
Proof.
  induction cs as [|c cs IH]; simpl; intros groups t.
  - destruct (Dict.get t groups); auto. now rewrite app_nil_r.
  - rewrite IH, get_group_add. rewrite (String.eqb_sym (tag c) t).
    destruct (String.eqb t (tag c)).
    + destruct (Dict.get t groups); now rewrite <- app_assoc.
    + reflexivity.
Qed.

Lemma keys_group_add c (groups : list (string * list Element)) :
  map fst (group_add c groups)
  = if existsb (String.eqb (tag c)) (map fst groups)
    then map fst groups
    else map fst groups ++ [tag c].
Proof.
  induction groups as [|[t' nodes] rest IH]; simpl; auto.
  destruct (String.eqb (tag c) t'); simpl; auto.
  rewrite IH. now destruct (existsb _ _).
Qed.

Lemma filter_filter (A : Type) (p q : A -> bool) (l : list A) :
  filter p (filter q l) = filter (fun x => q x && p x) l.
Proof.
  induction l as [|x l IH]; simpl; auto.
  destruct (q x); simpl; [destruct (p x)|]; now rewrite IH.
Qed.

Lemma keys_group_fold cs : forall groups : list (string * list Element),
  map fst (fold_left (fun g c => group_add c g) cs groups)
  = map fst groups
    ++ filter (fun t => negb (existsb (String.eqb t) (map fst groups)))
              (first_seen (map tag cs)).
Proof.
  induction cs as [|c cs IH]; simpl; intros groups.
  - now rewrite app_nil_r.
  - rewrite IH, keys_group_add.
    destruct (existsb (String.eqb (tag c)) (map fst groups)) eqn:E; simpl.
    + f_equal. rewrite filter_filter. apply filter_ext. intros x.
      destruct (String.eqb x (tag c)) eqn:Ex; auto.
      apply String.eqb_eq in Ex. subst x. now rewrite E.
    + rewrite <- app_assoc. simpl. do 2 f_equal.
      rewrite filter_filter. apply filter_ext. intros x.
      rewrite existsb_app. simpl. rewrite orb_false_r, negb_orb.
      apply andb_comm.
Qed.

(** X1. The groups of a node: looking a tag up gives the children with
    that tag, in document order, and nothing when there is none; the tags
    of the groups are the distinct child tags in first-seen order. *)
Theorem group_children_contract cs :
  (forall t,
      Dict.get t (group_children cs)
      = match filter (fun c => String.eqb (tag c) t) cs with
        | [] => None
        | l => Some l
        end)
  /\ map fst (group_children cs) = first_seen (map tag cs).
Proof.
  split.
  - intros t. unfold group_children. rewrite get_group_fold. simpl.
    now destruct (filter _ cs).
  - unfold group_children. rewrite keys_group_fold. simpl.
    induction (first_seen (map tag cs)) as [|x l IH]; simpl; congruence.
Qed.

Lemma group_add_nonempty c groups :
  Forall (fun g : string * list Element => snd g <> []) groups ->
  Forall (fun g : string * list Element => snd g <> []) (group_add c groups).
Proof.
  induction 1 as [|[t nodes] rest Hg Hrest IH]; simpl.
  - repeat constructor. discriminate.
  - destruct (String.eqb (tag c) t); constructor; auto.
    simpl. destruct nodes; discriminate.
Qed.

(** No group is empty. *)
Lemma group_children_nonempty cs g :
  In g (group_children cs) -> snd g <> [].
Proof.
  assert (H : forall groups,
             Forall (fun g : string * list Element => snd g <> []) groups ->
             Forall (fun g : string * list Element => snd g <> [])
                    (fold_left (fun g c => group_add c g) cs groups)).
  { induction cs as [|c cs IH]; simpl; intros groups Hg; auto.
    apply IH. now apply group_add_nonempty. }
  intros Hin. specialize (H [] (Forall_nil _)).
  rewrite Forall_forall in H. now apply H.
Qed.

(** ** Policy A: the rows of any tree *)

Lemma expand_node2_length element context :
  let base := add_attributes2 (tag element) (attrib element) context in
  List.length (expand_node2 element context)
  = product_of
      (map (group_rows (fun n => List.length (expand_node2 n base)))
           (group_children (children element))).
Proof.
  intros base. rewrite expand_node2_eq. unfold expand_node2_body.
  fold base.
  destruct (children element) as [|c cs] eqn:Ecs.
  - destruct (nonempty (stripped_text element)); reflexivity.
  - rewrite andb_false_r.
    rewrite length_map, length_product, map_map.
    f_equal. apply map_ext. intros g. unfold group_rows.
    apply length_flat_map_sum.
Qed.

Lemma product_of_pos (l : list nat) :
  Forall (fun n => 1 <= n) l -> 1 <= product_of l.
Proof.
  induction 1 as [|n l Hn _ IH]; simpl; [lia | nia].
Qed.

Lemma group_rows_pos (rows_of : Element -> nat) cs :
  (forall c, In c cs -> 1 <= rows_of c) ->
  Forall (fun n => 1 <= n) (map (group_rows rows_of) (group_children cs)).
Proof.
  intros H. apply Forall_forall. intros n Hn.
  apply in_map_iff in Hn. destruct Hn as [g [<- Hg]].
  pose proof (group_children_nonempty _ _ Hg) as Hne.
  unfold group_rows. destruct (snd g) as [|c nodes] eqn:Eg; [contradiction|].
  simpl.
  assert (1 <= rows_of c); [|lia].
  apply H. apply (group_children_In _ g c Hg). rewrite Eg. now left.
Qed.

(** X2. Policy A returns at least one row for every tree, context and
    path, under the column naming of [app.py] and under that of
    [version2.py]: the cartesian product never comes out empty. *)
Theorem expand_node_some_row : forall element,
  (forall context path, 1 <= List.length (expand_node element context path))
  /\ (forall context, 1 <= List.length (expand_node2 element context)).
Proof.
  induction element as [element IH] using Element_children_ind.
  split.
  - intros context path. rewrite expand_node_length.
    apply product_of_pos, group_rows_pos.
    intros c Hc. apply (IH c Hc).
  - intros context. rewrite expand_node2_length.
    apply product_of_pos, group_rows_pos.
    intros c Hc. apply (IH c Hc).
Qed.

(** X3. The naming of the columns does not change the number of rows:
    [expand_node] of [version2.py] returns as many rows as [expand_node] of
    [app.py], whatever contexts and path they are given. *)
Theorem expand_node_variants_same_count : forall element context2 context path,
  List.length (expand_node2 element context2)
  = List.length (expand_node element context path).
Proof.
  induction element as [element IH] using Element_children_ind.
  intros context2 context path.
  rewrite expand_node_length, expand_node2_length.
  f_equal. apply map_ext_in. intros g Hg. unfold group_rows.
  f_equal. apply map_ext_in. intros n Hn. apply IH.
  eapply group_children_In; eauto.
Qed.

Lemma mem_set (V : Type) k k' (v : V) d :
  Dict.mem k (Dict.set k' v d) = String.eqb k k' || Dict.mem k d.
Proof.
  unfold Dict.mem. rewrite DictFacts.get_set.
  now destruct (String.eqb k k').
Qed.

Lemma mem_update (V : Type) k (other : Dict.t V) : forall d,
  Dict.mem k d = true -> Dict.mem k (Dict.update d other) = true.
Proof.
  unfold Dict.update.
  induction other as [|[k' v'] o IH]; simpl; intros d H; auto.
  apply IH. rewrite mem_set, H. apply orb_true_r.
Qed.

Lemma mem_merge_combo k (combo : list row) : forall base,
  Dict.mem k base = true -> Dict.mem k (merge_combo base combo) = true.
Proof.
  unfold merge_combo.
  induction combo as [|r combo IH]; simpl; intros base H; auto.
  apply IH. now apply mem_update.
Qed.

Lemma mem_fold_set (A V : Type) (key : A -> string) (val : A -> V) k
      (l : list A) : forall d : Dict.t V,
  Dict.mem k d = true ->
  Dict.mem k (fold_left (fun b a => Dict.set (key a) (val a) b) l d) = true.
Proof.
  induction l as [|a l IH]; simpl; intros d H; auto.
  apply IH. rewrite mem_set, H. apply orb_true_r.
Qed.

(** X4. Parent data is carried down: every row Policy A returns holds
    every column of the context it was given (a descendant may have put a
    new value there), in [app.py] and in [version2.py]. *)
Theorem expand_node_keeps_context_columns element context path k :
  Dict.mem k context = true ->
  (forall r, In r (expand_node element context path) -> Dict.mem k r = true)
  /\ (forall r, In r (expand_node2 element context) -> Dict.mem k r = true).
Proof.
  intros Hk. split.
  - intros r Hr. rewrite expand_node_eq in Hr. unfold expand_node_body in Hr.
    assert (Hbase : Dict.mem k (add_attributes (node_prefix path element)
                                               (attrib element) context)
                    = true)
      by (unfold add_attributes; now apply mem_fold_set).
    destruct (nonempty (stripped_text element)
              && Nat.eqb (List.length (children element)) 0).
    + destruct Hr as [<-|[]]. rewrite mem_set, Hbase. apply orb_true_r.
    + destruct (children element) as [|c cs].
      * destruct Hr as [<-|[]]. exact Hbase.
      * apply in_map_iff in Hr. destruct Hr as [combo [<- _]].
        now apply mem_merge_combo.
  - intros r Hr. rewrite expand_node2_eq in Hr.
    unfold expand_node2_body in Hr.
    assert (Hbase : Dict.mem k (add_attributes2 (tag element)
                                                (attrib element) context)
                    = true)
      by (unfold add_attributes2; now apply mem_fold_set).
    destruct (nonempty (stripped_text element)
              && Nat.eqb (List.length (children element)) 0).
    + destruct Hr as [<-|[]]. rewrite mem_set, Hbase. apply orb_true_r.
    + destruct (children element) as [|c cs].
      * destruct Hr as [<-|[]]. exact Hbase.
      * apply in_map_iff in Hr. destruct Hr as [combo [<- _]].
        now apply mem_merge_combo.
Qed.

Lemma expand_node_keeps_context_columns_witness :
  Dict.mem "file"
           [("file", "f.xml"); ("data_item_id", "1"); ("data_item", "A")]
  = true.
Proof.
  exact (proj1 (expand_node_keeps_context_columns scenario
                  [("file", "f.xml")] "" "file" eq_refl)
               _ (or_introl eq_refl)).
Defined.

(** X5. Column names carry the path: whatever a row of [expand_node] holds
    beyond the context sits under a column that starts with the node's
    prefix, so every column of [parse_xml] starts with the tag of the
    root. *)
Theorem columns_start_with_prefix element :
  (forall context path r k v,
      In r (expand_node element context path) -> In (k, v) r ->
      In (k, v) context
      \/ String.prefix (node_prefix path element) k = true)
  /\ (forall r k v,
         In r (parse_xml element) -> In (k, v) r ->
         String.prefix (tag element) k = true).
Proof.
  split.
  - intros context path r k v. apply expand_node_items.
  - intros r k v Hr Hkv. unfold parse_xml in Hr.
    destruct (@expand_node_items _ _ _ _ _ _ Hr Hkv) as [[]|H].
    exact H.
Qed.

(** ** Policy B: repetition and the flattening signal *)

Lemma count_add_group_add c (groups : list (string * list Element)) :
  count_add (tag c) (map (fun g => (fst g, List.length (snd g))) groups)
  = map (fun g => (fst g, List.length (snd g))) (group_add c groups).
Proof.
  induction groups as [|[t nodes] rest IH]; simpl; auto.
  destruct (String.eqb (tag c) t); simpl.
  - rewrite length_app. simpl. now rewrite Nat.add_1_r.
  - now rewrite IH.
Qed.

(** The counters of [_has_repetitive_descendants] are the sizes of the
    groups. *)
Lemma tag_counts_groups cs :
  tag_counts cs
  = map (fun g => (fst g, List.length (snd g))) (group_children cs).
Proof.
  unfold tag_counts, group_children.
  change (@nil (string * nat))
    with (map (fun g : string * list Element => (fst g, List.length (snd g)))
              []).
  generalize (@nil (string * list Element)).
  induction cs as [|c cs IH]; simpl; intros groups; auto.
  now rewrite count_add_group_add, IH.
Qed.

Lemma get_In (V : Type) k (v : V) d : Dict.get k d = Some v -> In (k, v) d.
Proof.
  induction d as [|[k' v'] d IH]; simpl; [discriminate|].
  destruct (String.eqb k k') eqn:E.
  - apply String.eqb_eq in E. subst. intros H. inversion H. now left.
  - auto.
Qed.

Lemma repeated_tag_found cs :
  distinct (map tag cs) = false ->
  exists t, 2 <= List.length (filter (fun c => String.eqb (tag c) t) cs).
Proof.
  induction cs as [|c cs IH]; simpl; [discriminate|].
  intros H. apply andb_false_iff in H. destruct H as [H|H].
  - apply negb_false_iff in H. apply existsb_exists in H.
    destruct H as [t [Hin Heq]]. apply String.eqb_eq in Heq. subst t.
    exists (tag c). rewrite String.eqb_refl. simpl.
    apply in_map_iff in Hin. destruct Hin as [c' [Htag Hc']].
    assert (Hf : In c' (filter (fun c0 => String.eqb (tag c0) (tag c)) cs)).
    { apply filter_In. split; auto. rewrite Htag. apply String.eqb_refl. }
    destruct (filter _ cs); [contradiction | simpl; lia].
  - destruct (IH H) as [t Ht]. exists t.
    destruct (String.eqb (tag c) t); simpl; lia.
Qed.

(** Some group has two nodes exactly when two children share a tag. *)
Lemma repetitive_group_iff cs :
  existsb (fun g : string * list Element => Nat.ltb 1 (List.length (snd g)))
          (group_children cs)
  = negb (distinct (map tag cs)).
Proof.
  destruct (distinct (map tag cs)) eqn:Hd; simpl.
  - rewrite (group_children_distinct _ Hd). apply singletons_not_repetitive.
  - destruct (repeated_tag_found _ Hd) as [t Ht].
    apply existsb_exists.
    exists (t, filter (fun c => String.eqb (tag c) t) cs). split.
    + apply get_In. unfold group_children. rewrite get_group_fold. simpl.
      destruct (filter _ cs); [simpl in Ht; lia | reflexivity].
    + simpl. apply Nat.ltb_lt. lia.
Qed.

Lemma existsb_negb_forallb (A : Type) (f g : A -> bool) (l : list A) :
  (forall a, In a l -> f a = negb (g a)) ->
  existsb f l = negb (forallb g l).
Proof.
  induction l as [|a l IH]; simpl; intros H; auto.
  rewrite (H a), IH, negb_andb; auto.
Qed.

Lemma existsb_map_comp (A B : Type) (f : B -> bool) (g : A -> B)
      (l : list A) :
  existsb f (map g l) = existsb (fun a => f (g a)) l.
Proof. induction l as [|a l IH]; simpl; congruence. Qed.

Lemma has_repetitive_negb_no_repeats : forall element,
  _has_repetitive_descendants element = negb (no_repeated_tags element).
Proof.
  induction element as [element IH] using Element_children_ind.
  destruct element as [t a x cs]. simpl in *.
  rewrite tag_counts_groups, existsb_map_comp. simpl.
  rewrite repetitive_group_iff, negb_andb.
  rewrite <- (existsb_negb_forallb _ _ _ IH).
  now destruct (distinct (map tag cs)).
Qed.

(** X6. [_has_repetitive_descendants] is true exactly when some node of
    the tree, the element itself included, has two children with the same
    tag. *)
Theorem has_repetitive_descendants_iff element :
  _has_repetitive_descendants element = true
  <-> no_repeated_tags element = false.
Proof.
  rewrite has_repetitive_negb_no_repeats. apply negb_true_iff.
Qed.

Lemma flatten_children_None rec cs :
  (exists c, In c cs /\ rec c = None) ->
  forall result,
    flatten_children rec (map (fun c => (tag c, [c])) cs) result = None.
Proof.
  induction cs as [|c0 cs IH]; simpl; intros [c [Hc Hnone]] result.
  - contradiction.
  - destruct (rec c0) as [r0|] eqn:E0; auto.
    apply IH. exists c. split; auto.
    destruct Hc as [->|Hc]; [congruence | exact Hc].
Qed.

Lemma flatten_repetitive_None : forall element,
  _has_repetitive_descendants element = true ->
  forall prefix, _flatten_element element prefix = None.
Proof.
  induction element as [element IH] using Element_children_ind.
  intros Hrep prefix.
  rewrite _flatten_element_eq. unfold _flatten_element_body.
  rewrite repetitive_group_iff.
  destruct (distinct (map tag (children element))) eqn:Hd; simpl; auto.
  rewrite (group_children_distinct _ Hd).
  apply flatten_children_None.
  destruct element as [t a x cs]. simpl in *.
  rewrite tag_counts_groups, existsb_map_comp in Hrep. simpl in Hrep.
  rewrite repetitive_group_iff, Hd in Hrep. simpl in Hrep.
  apply existsb_exists in Hrep. destruct Hrep as [c [Hc Hrc]].
  exists c. split; auto.
Qed.

(** X7. [_flatten_element] gives [None] exactly when
    [_has_repetitive_descendants] holds of the element, whatever the
    prefix; so the branch of [flatten_xml] taken without repetition always
    gets a dictionary. *)
Theorem flatten_None_iff_repetitive element prefix :
  _flatten_element element prefix = None
  <-> _has_repetitive_descendants element = true.
Proof.
  split.
  - intros Hnone.
    destruct (_has_repetitive_descendants element) eqn:Hrep; auto.
    rewrite has_repetitive_negb_no_repeats in Hrep.
    apply negb_false_iff in Hrep.
    destruct (flatten_no_repeats _ Hrep prefix) as [r [Hr _]].
    congruence.
  - intros Hrep. now apply flatten_repetitive_None.
Qed.

(** ** Policy B: the columns of a flattened element *)

Lemma append_assoc3 (a b c : string) :
  ((a ++ b) ++ c)%string = (a ++ b ++ c)%string.
Proof. induction a as [|x a IH]; simpl; congruence. Qed.

Lemma prefixed_or_not (p x : string) :
  (if nonempty p then (p ++ x)%string else x) = (p ++ x)%string.
Proof. now destruct p. Qed.

Lemma In_fold_set (A V : Type) (key : A -> string) (val : A -> V)
      (l : list A) k v : forall d : Dict.t V,
  In (k, v) (fold_left (fun r a => Dict.set (key a) (val a) r) l d) ->
  In (k, v) d \/ exists a, In a l /\ k = key a.
Proof.
  induction l as [|a l IH]; simpl; intros d H; auto.
  apply IH in H. destruct H as [H|[a' [Ha' ->]]].
  - apply In_set in H. destruct H as [[-> _]|H]; eauto.
  - eauto.
Qed.

Lemma flatten_children_items (Q : string * value -> Prop) rec groups :
  forall result r,
    (forall kv, In kv result -> Q kv) ->
    (forall g c rc, In g groups -> In c (snd g) -> rec c = Some rc ->
                    forall kv, In kv rc -> Q kv) ->
    flatten_children rec groups result = Some r ->
    forall kv, In kv r -> Q kv.
Proof.
  induction groups as [|[t nodes] rest IH]; simpl;
    intros result r Hres Hrec Hflat kv Hkv.
  - inversion Hflat; subst. auto.
  - destruct nodes as [|child nodes]; [discriminate|].
    destruct (rec child) as [rc|] eqn:Erc; [|discriminate].
    apply (IH (Dict.update result rc) r); auto.
    + intros kv' Hkv'. apply In_update in Hkv'.
      destruct Hkv' as [H|H]; auto.
      apply (Hrec (t, child :: nodes) child rc); simpl; auto.
    + intros g c rc' Hg Hc Hrc'. apply (Hrec g c rc'); auto.
Qed.

Lemma flatten_items : forall element prefix r k v,
  _flatten_element element prefix = Some r -> In (k, v) r ->
  String.prefix (prefix ++ tag element) k = true.
Proof.
  induction element as [element IH] using Element_children_ind.
  intros prefix r k v Hflat Hkv.
  rewrite _flatten_element_eq in Hflat. unfold _flatten_element_body in Hflat.
  destruct (existsb _ (group_children (children element)));
    [discriminate|].
  refine (@flatten_children_items
            (fun kv => String.prefix (prefix ++ tag element) (fst kv) = true)
            _ _ _ _ _ _ Hflat (k, v) Hkv).
  - intros [k' v'] H. simpl.
    assert (Hattrs : forall d,
               In (k', v')
                  (fold_left
                     (fun r0 (kv : string * string) =>
                        Dict.set (if nonempty prefix
                                  then (prefix ++ tag element ++ "_"
                                               ++ fst kv)%string
                                  else (tag element ++ "_" ++ fst kv)%string)
                                 (VStr (snd kv)) r0)
                     (attrib element) d) ->
               In (k', v') d
               \/ String.prefix (prefix ++ tag element) k' = true).
    { intros d Hd. apply In_fold_set in Hd.
      destruct Hd as [Hd|[a [_ ->]]]; auto.
      right. rewrite prefixed_or_not, <- append_assoc3. apply prefix_app. }
    destruct (has_text element).
    + apply In_set in H. destruct H as [[-> _]|H].
      * rewrite prefixed_or_not. apply prefix_refl.
      * apply Hattrs in H. destruct H as [[]|H]; exact H.
    + apply Hattrs in H. destruct H as [[]|H]; exact H.
  - intros g c rc Hg Hc Hrc [k' v'] Hkv'. simpl.
    pose proof (group_children_In _ g c Hg Hc) as Hin.
    pose proof (IH c Hin _ _ _ _ Hrc Hkv') as H.
    rewrite prefixed_or_not in H. rewrite !append_assoc3 in H.
    rewrite <- append_assoc3 in H. now apply prefix_app_inv in H.
Qed.

(** X8. Every column of a flattened element starts with the prefix
    followed by the element's tag; flattened from the top, as [flatten_xml]
    and [_extract_repetitive_data] do, every column starts with the
    element's own tag. *)
Theorem flatten_columns_start_with_tag element prefix r k v :
  _flatten_element element prefix = Some r ->
  In (k, v) r ->
  String.prefix (prefix ++ tag element) k = true.
Proof. apply flatten_items. Qed.

Lemma flatten_columns_start_with_tag_witness :
  String.prefix "a" "a_c" = true.
Proof.
  refine (@flatten_columns_start_with_tag
            (Elem "a" [("x", "1")] (Some "t") [Elem "c" [] (Some "u") []])
            "" [("a_x", VStr "1"); ("a", VStr "t"); ("a_c", VStr "u")]
            "a_c" (VStr "u") eq_refl _).
  simpl. auto.
Defined.

(** ** Policy B: the designated root *)





(** ** Policy B: the rows of [_extract_repetitive_data] *)

Lemma node_data_mem element data k :
  Dict.mem k data = true -> Dict.mem k (node_data element data) = true.
Proof.
  intros H. unfold node_data. apply mem_fold_set.
  destruct (has_text element); auto.
  rewrite mem_set, H. apply orb_true_r.
Qed.

Lemma inline_non_repetitive_mem k nr : forall cur,
  Dict.mem k cur = true ->
  match inline_non_repetitive nr cur with
  | Inlined current_data => Dict.mem k current_data = true
  | Fallback _ current_data => Dict.mem k current_data = true
  end.
Proof.
  induction nr as [|[t c] nr IH]; intros cur H;
    cbn [inline_non_repetitive]; auto.
  destruct (_flatten_element c "") as [[|kv fl]|]; auto.
  apply IH. now apply mem_update.
Qed.

Section ExtractedRows.
Variable now : string.

Lemma finished_from_trans data data' r :
  (forall k, Dict.mem k data = true -> Dict.mem k data' = true) ->
  finished_from now data' r -> finished_from now data r.
Proof. intros H [H1 H2]. split; auto. Qed.

Lemma fan_out_fold cur tn (reps : list (string * list Element)) :
  forall acc,
    fold_left
      (fun collected (g : string * list Element) =>
         fold_left
           (fun collected0 (ic : Z * Element) =>
              _extract_repetitive_data now (snd ic)
                (Dict.set "_sequence_num" (VInt (fst ic + 1)) cur)
                collected0 tn)
           (enumerate (snd g)) collected)
      reps acc
    = acc
      ++ flat_map
           (fun g : string * list Element =>
              flat_map
                (fun ic : Z * Element =>
                   _extract_repetitive_data now (snd ic)
                     (Dict.set "_sequence_num" (VInt (fst ic + 1)) cur)
                     [] tn)
                (enumerate (snd g)))
           reps.
Proof.
  assert (Hinner : forall (g : string * list Element) acc,
             fold_left
               (fun collected0 (ic : Z * Element) =>
                  _extract_repetitive_data now (snd ic)
                    (Dict.set "_sequence_num" (VInt (fst ic + 1)) cur)
                    collected0 tn)
               (enumerate (snd g)) acc
             = acc
               ++ flat_map
                    (fun ic : Z * Element =>
                       _extract_repetitive_data now (snd ic)
                         (Dict.set "_sequence_num" (VInt (fst ic + 1)) cur)
                         [] tn)
                    (enumerate (snd g))).
  { intros g acc.
    apply (fold_left_app_acc _ (enumerate (snd g))
             (fun ic Hic acc' =>
                _extract_repetitive_data_app now (snd ic) _ acc' tn)). }
  intros acc. rewrite fold_left_app_acc.
  - f_equal. apply flat_map_ext_in. intros g Hg. apply (Hinner g []).
  - intros g Hg acc'. rewrite (Hinner g acc'), (Hinner g []). reflexivity.
Qed.

Lemma extracted_rows_finished : forall element parent_data tn r,
  In r (_extract_repetitive_data now element parent_data [] tn) ->
  finished_from now parent_data r.
Proof.
  induction element as [element IH] using Element_children_ind.
  intros parent_data tn r Hr.
  rewrite _extract_repetitive_data_eq in Hr.
  unfold _extract_repetitive_data_body in Hr.
  pose proof (fun k (H : Dict.mem k parent_data = true) =>
                inline_non_repetitive_mem k
                  (non_repetitive_groups
                     (group_children (children element)))
                  (node_data element parent_data)
                  (node_data_mem element parent_data k H)) as Hmem.
  destruct (inline_non_repetitive _ _) as [cur|child cur] eqn:Einl.
  - destruct (repetitive_groups _) as [|g0 gs] eqn:Erep.
    + destruct (negb (record_eqb cur parent_data)); [|contradiction].
      destruct Hr as [<-|[]]. split.
      * apply DictFacts.get_set_same.
      * intros k Hk. rewrite mem_set, (Hmem k Hk). apply orb_true_r.
    + rewrite <- Erep in Hr. rewrite fan_out_fold in Hr. simpl in Hr.
      apply in_flat_map in Hr. destruct Hr as [g [Hg Hr]].
      apply in_flat_map in Hr. destruct Hr as [ic [Hic Hr]].
      apply IH in Hr; [|eapply repetitive_child_In; eauto].
      eapply finished_from_trans; [|exact Hr].
      intros k Hk. rewrite mem_set, (Hmem k Hk). apply orb_true_r.
  - apply IH in Hr; [|eapply fallback_child_In; eauto].
    eapply finished_from_trans; [|exact Hr]. exact Hmem.
Qed.

(** X10. [_extract_repetitive_data] only appends to the rows collected so
    far, and every row it appends is stamped with the load time and holds
    every column of the parent data it was given. *)
Theorem extract_appends_finished_rows element parent_data collected tn :
  exists rows,
    _extract_repetitive_data now element parent_data collected tn
    = collected ++ rows
    /\ Forall (finished_from now parent_data) rows.
Proof.
  exists (_extract_repetitive_data now element parent_data [] tn).
  split.
  - apply _extract_repetitive_data_app.
  - apply Forall_forall. intros r Hr.
    now apply extracted_rows_finished in Hr.
Qed.

End ExtractedRows.

(** ** Policy B: the tables of [flatten_xml] *)

Section Tables.
Variable now : string.

Lemma flatten_level1_cases tbls child :
  flatten_level1 now tbls child = tbls
  \/ exists rows,
       rows <> []
       /\ Forall (fun r => Dict.get "_load_timestamp" r = Some (VStr now)) rows
       /\ flatten_level1 now tbls child = Dict.set (tag child) rows tbls.
Proof.
  unfold flatten_level1. cbv zeta.
  destruct (_has_repetitive_descendants child).
  - destruct (_extract_repetitive_data now child
                (node_data child (Dict.empty value)) [] (tag child))
      as [|r rows] eqn:E; [now left|].
    right. exists (r :: rows). split; [discriminate|]. split; auto.
    rewrite <- E. apply Forall_forall. intros r' Hr'.
    apply extracted_rows_finished in Hr'. apply Hr'.
  - destruct (_flatten_element child "") as [[|kv fl]|]; [now left| |now left].
    right. exists [Dict.set "_load_timestamp" (VStr now) (kv :: fl)].
    split; [discriminate|]. split; [|reflexivity].
    constructor; [|constructor]. apply DictFacts.get_set_same.
Qed.

Lemma flatten_level1_fold_tables cs name rows : forall tbls,
  Dict.get name (fold_left (flatten_level1 now) cs tbls) = Some rows ->
  Dict.get name tbls = Some rows
  \/ ((exists c, In c cs /\ tag c = name)
      /\ rows <> []
      /\ Forall (fun r => Dict.get "_load_timestamp" r = Some (VStr now))
                rows).
Proof.
  induction cs as [|c cs IH]; simpl; intros tbls H; auto.
  apply IH in H. destruct H as [H|[[c' [Hc' Htag]] H]].
  - destruct (flatten_level1_cases tbls c) as [Heq|[rows' [Hne [Hts Heq]]]];
      rewrite Heq in H; auto.
    rewrite DictFacts.get_set in H.
    destruct (String.eqb name (tag c)) eqn:E; auto.
    apply String.eqb_eq in E. inversion H; subst.
    right. split; eauto.
  - right. split; eauto.
Qed.

(** X11. Every table [flatten_xml] returns is named after a level-1 child
    of the designated root, holds at least one row, and holds only rows
    stamped with the load time. *)
Theorem flatten_xml_tables data_node root name rows :
  Dict.get name (flatten_xml now data_node root) = Some rows ->
  rows <> []
  /\ (exists d c, select_data_element data_node root = Some d
                  /\ In c (children d) /\ tag c = name)
  /\ Forall (fun r => Dict.get "_load_timestamp" r = Some (VStr now)) rows.
Proof.
  unfold flatten_xml. intros H.
  destruct (select_data_element data_node root) as [d|]; [|discriminate].
  apply flatten_level1_fold_tables in H.
  destruct H as [H|[[c [Hc Htag]] [Hne Hts]]]; [discriminate|].
  split; auto. split; auto. exists d, c. auto.
Qed.

End Tables.

Lemma flatten_xml_tables_witness :
  [[("item_id", VStr "2"); ("item", VStr "B");
    ("_load_timestamp", VStr "2026")]] <> [].
Proof.
  exact (proj1 (@flatten_xml_tables "2026" "data" scenario "item" _ eq_refl)).
Defined.

(** ** Type inference: range and sequence numbers *)

(** X12. [_infer_snowflake_type] returns INTEGER, FLOAT, DATE or a
    VARCHAR whose width lies between 200 and 16777216, for every value
    and for an absent one. *)
Theorem infer_type_is_storage_type (value : option value) :
  storage_type (_infer_snowflake_type value).
Proof.
  assert (H500 : storage_type "VARCHAR(500)").
  { right. right. right. exists 500%Z. split; [lia | reflexivity]. }
  assert (Hgen : forall v, storage_type (typed_in_order v)).
  { intros v. unfold typed_in_order.
    destruct (int_parses v); [left; reflexivity|].
    destruct (float_parses v); [right; left; reflexivity|].
    destruct (date_shaped v); [right; right; left; reflexivity|].
    right. right. right.
    exists (Z.min (Z.max (strlen v) 100 * 2) 16777216). split; [lia|].
    reflexivity. }
  destruct value as [[s|n]|]; auto.
  - destruct s; [exact H500 | apply Hgen].
  - apply (Hgen (strip (string_of_Z n))).
Qed.

Lemma uint_plain_digits d :
  all_chars plain_digit (NilEmpty.string_of_uint d) = true.
Proof. induction d; simpl; auto. Qed.

Lemma nz_uint_plain_digits d :
  all_chars plain_digit (NilZero.string_of_uint d) = true
  /\ NilZero.string_of_uint d <> "".
Proof.
  destruct d; simpl; (split; [|discriminate]);
    auto; apply uint_plain_digits.
Qed.

Lemma plain_digit_facts c :
  plain_digit c = true ->
  is_digit c = true /\ is_space c = false
  /\ Ascii.eqb c "+" = false /\ Ascii.eqb c "-" = false.
Proof.
  unfold plain_digit. intros H.
  apply andb_prop in H. destruct H as [H Hminus].
  apply andb_prop in H. destruct H as [H Hplus].
  apply andb_prop in H. destruct H as [Hdigit Hspace].
  repeat split; auto; now apply negb_true_iff.
Qed.

Lemma digits_tail_plain s :
  all_chars plain_digit s = true -> digits_tail s = "".
Proof.
  induction s as [|c s IH]; simpl; intros H; auto.
  apply andb_prop in H. destruct H as [Hc Hs].
  apply plain_digit_facts in Hc. destruct Hc as [-> _]. auto.
Qed.

Lemma rstrip_no_space s :
  all_chars (fun c => negb (is_space c)) s = true -> rstrip s = s.
Proof.
  induction s as [|c s IH]; simpl; intros H; auto.
  apply andb_prop in H. destruct H as [Hc Hs].
  rewrite (IH Hs). apply negb_true_iff in Hc. rewrite Hc.
  now destruct s.
Qed.

Lemma strip_no_space s :
  all_chars (fun c => negb (is_space c)) s = true -> strip s = s.
Proof.
  intros H. unfold strip.
  assert (Hl : lstrip s = s).
  { destruct s as [|c s]; simpl in *; auto.
    apply andb_prop in H. destruct H as [Hc _].
    apply negb_true_iff in Hc. now rewrite Hc. }
  rewrite Hl. now apply rstrip_no_space.
Qed.

Lemma all_chars_weaken (p q : ascii -> bool) s :
  (forall c, p c = true -> q c = true) ->
  all_chars p s = true -> all_chars q s = true.
Proof.
  intros Hpq. induction s as [|c s IH]; simpl; intros H; auto.
  apply andb_prop in H. destruct H as [Hc Hs].
  rewrite (Hpq c Hc), IH; auto.
Qed.

Lemma plain_digits_parse s :
  all_chars plain_digit s = true -> s <> "" ->
  int_parses s = true /\ int_parses (String "-" s) = true
  /\ strip s = s /\ strip (String "-" s) = String "-" s.
Proof.
  intros H Hne.
  assert (Hns : all_chars (fun c => negb (is_space c)) s = true).
  { apply (all_chars_weaken plain_digit); auto.
    intros c Hc. apply plain_digit_facts in Hc.
    destruct Hc as [_ [-> _]]. reflexivity. }
  assert (Hs : strip s = s) by now apply strip_no_space.
  assert (Hm : strip (String "-" s) = String "-" s).
  { apply strip_no_space. simpl. exact Hns. }
  assert (Hd : digitpart s = Some "").
  { destruct s as [|c s]; [contradiction|]. simpl in *.
    apply andb_prop in H. destruct H as [Hc Hrest].
    apply plain_digit_facts in Hc. destruct Hc as [-> _].
    now rewrite digits_tail_plain. }
  repeat split; auto.
  - unfold int_parses. rewrite Hs.
    destruct s as [|c s]; [contradiction|].
    unfold drop_sign. simpl in H. apply andb_prop in H.
    destruct H as [Hc _]. apply plain_digit_facts in Hc.
    destruct Hc as [_ [_ [-> ->]]]. simpl orb. cbv iota.
    now rewrite Hd.
  - unfold int_parses. rewrite Hm. simpl drop_sign. now rewrite Hd.
Qed.

(** X13. A sequence number, or any other integer value, is typed INTEGER:
    its decimal form always parses as an integer. *)
Theorem integer_value_is_INTEGER (n : Z) :
  _infer_snowflake_type (Some (VInt n)) = "INTEGER".
Proof.
  unfold _infer_snowflake_type. simpl py_str. cbv zeta.
  assert (H : int_parses (strip (string_of_Z n)) = true).
  { unfold string_of_Z, NilZero.string_of_int.
    destruct (Z.to_int n) as [d|d];
      destruct (nz_uint_plain_digits d) as [Hd Hne];
      destruct (plain_digits_parse Hd Hne) as [H1 [H2 [H3 H4]]].
    - now rewrite H3.
    - now rewrite H4. }
  now rewrite H.
Qed.

(** ** Configuration values *)

Lemma length_snoc s c : String.length (s ++ String c "") = S (String.length s).
Proof. induction s as [|x s IH]; simpl; congruence. Qed.

Lemma ends_with_snoc q s : forall c,
  ends_with q (String c (s ++ String q "")) = true.
Proof.
  induction s as [|x s IH]; intros c.
  - simpl. apply Ascii.eqb_refl.
  - change (ends_with q (String x (s ++ String q "")) = true). apply IH.
Qed.

Lemma drop_last_snoc s c : drop_last (s ++ String c "") = s.
Proof.
  induction s as [|x s IH]; simpl; auto.
  rewrite IH. destruct s; reflexivity.
Qed.

Lemma clean_value_quoted q s :
  q = dquote \/ q = squote ->
  clean_value (String q (s ++ String q "")) = s.
Proof.
  intros Hq. unfold clean_value.
  assert (Hlen : Nat.leb 2 (String.length (String q (s ++ String q "")))
                 = true)
    by (simpl; now rewrite length_snoc).
  rewrite Hlen.
  change (nonempty (String q (s ++ String q ""))) with true.
  change (starts_with dquote (String q (s ++ String q "")))
    with (Ascii.eqb q dquote).
  change (starts_with squote (String q (s ++ String q "")))
    with (Ascii.eqb q squote).
  destruct Hq as [-> | ->].
  - rewrite ends_with_snoc. simpl. apply drop_last_snoc.
  - rewrite (ends_with_snoc squote). simpl. apply drop_last_snoc.
Qed.

(** X14. [clean_value] undoes quoting: a text put between two double
    quotes, or between two single quotes, comes back as it was; and a
    value that does not start with a quote is returned unchanged. *)
Theorem clean_value_unquotes (s : string) :
  clean_value (String dquote (s ++ String dquote "")) = s
  /\ clean_value (String squote (s ++ String squote "")) = s
  /\ (starts_with dquote s = false -> starts_with squote s = false ->
      clean_value s = s).
Proof.
  split; [|split].
  - apply clean_value_quoted. now left.
  - apply clean_value_quoted. now right.
  - intros Hd Hs. unfold clean_value. rewrite Hd, Hs. simpl orb.
    now destruct (nonempty s && Nat.leb 2 (String.length s)).
Qed.

(** ** Column identifiers *)

Lemma safe_char_clean c :
  let c' := to_upper (if Ascii.eqb (if Ascii.eqb c "-" then "_"%char else c)
                                   "."
                      then "_"%char
                      else if Ascii.eqb c "-" then "_"%char else c) in
  clean_char c' = true
  /\ to_upper (if Ascii.eqb (if Ascii.eqb c' "-" then "_"%char else c') "."
               then "_"%char
               else if Ascii.eqb c' "-" then "_"%char else c') = c'.
Proof.
  destruct c as [[] [] [] [] [] [] [] []]; vm_compute; split; reflexivity.
Qed.

(** X15. A column identifier made by [safe_col_name] holds no hyphen, no
    dot and no lower-case ASCII letter, and making an identifier of an
    identifier changes nothing. *)
Theorem safe_col_name_clean (col_name : string) :
  all_chars clean_char (safe_col_name col_name) = true
  /\ safe_col_name (safe_col_name col_name) = safe_col_name col_name.
Proof.
  unfold safe_col_name.
  induction col_name as [|c s [IH1 IH2]]; [split; reflexivity|].
  destruct (safe_char_clean c) as [Hc Hi].
  split.
  - cbn [replace_char upper all_chars]. now rewrite Hc, IH1.
  - cbn [replace_char upper]. now rewrite Hi, IH2.
Qed.

(** ** Policy A: the size of the cartesian product *)

Lemma list_sum_ones (A : Type) (f : A -> nat) (l : list A) :
  (forall a, In a l -> f a = 1) -> list_sum (map f l) = List.length l.
Proof.
  induction l as [|a l IH]; simpl; intros H; auto.
  rewrite (H a), IH; auto.
Qed.

(** X16. When every child of a node is childless, Policy A returns as
    many rows as the product of the sizes of the node's tag groups. *)
Theorem expand_node_leaf_groups_product element context path :
  forallb childless (children element) = true ->
  List.length (expand_node element context path)
  = product_of (map (fun g => List.length (snd g))
                    (group_children (children element))).
Proof.
  intros Hleaf. rewrite expand_node_length.
  f_equal. apply map_ext_in. intros g Hg. unfold group_rows.
  apply list_sum_ones. intros n Hn.
  apply expand_node_childless.
  rewrite forallb_forall in Hleaf. apply Hleaf.
  eapply group_children_In; eauto.
Qed.

Lemma expand_node_leaf_groups_product_witness :
  List.length (expand_node two_by_three (Dict.empty string) "") = 2 * 3.
Proof.
  exact (@expand_node_leaf_groups_product two_by_three (Dict.empty string) ""
           eq_refl).
Defined.
